(** * DataTreeDemo: the manual hierarchical time-average (Method B)

    A shallow embedding of [copy_dims], [copy_vars] and [recursive_copy]
    from [DataTreeDemo.ipynb], together with the part of the netCDF4 and
    numpy interfaces those three functions call.

    Conventions of the embedding.
    - The two open datasets live in a [store]; a Python group object is a
      [handle] (file and path from the root), so that the in-place
      mutation of the destination and the read-only use of the source are
      both visible in the model.  An exception leaves the store as it was
      when it was raised.
    - A Python dict is an insertion-ordered association list ([Dict]).
    - A dimension is its declared size: [Unlimited] or [Fixed n].  The
      current length of an unlimited dimension is not tracked: every
      variable has the shape of its own array, so the lengthening of the
      other variables on an unlimited dimension that a write makes grow
      is outside the model.
    - Element types are the numeric primitive types; text, compound,
      variable-length and enum types are outside the model.
    - Array elements are exact rationals.  Writing into a variable
      converts every element to the variable's element type: a
      floating-point type stores the value (in lowest terms), an integer
      type truncates toward zero.  Rounding, NaN (the mean over an empty
      axis), masking and packing (scale_factor / add_offset) are outside
      the model; attribute values are opaque.  Statements about computed
      values are therefore made under [read_as_stored] and [exact_mean],
      which single out the data on which the libraries compute what the
      model computes.

    What is taken from the library.
    - [createDimension] and [createVariable] raise when the name is in
      use in the group; [createGroup] returns an existing group.
    - [createVariable] looks every dimension name up in the group and
      then in its parents, and raises for a name it does not find.
    - An assignment [var[:] = data] needs an array with one axis per
      dimension of the variable and raises otherwise. *)

From Stdlib Require Import List String Bool Arith ZArith QArith Lia.
Import ListNotations.
Local Open Scope string_scope.
Local Open Scope list_scope.
Local Open Scope nat_scope.
#[local] Set Warnings "-register-all".

(* ------------------------------------------------------------------ *)
(** ** Insertion-ordered dictionaries *)

Module Dict.
Section Dict.
Context {V : Type}.

Fixpoint get (k : string) (d : list (string * V)) : option V :=
  match d with
  | [] => None
  | (k', v) :: r => if String.eqb k k' then Some v else get k r
  end.

Definition keys (d : list (string * V)) : list string := map fst d.

(** [k in d] *)
Definition mem (k : string) (d : list (string * V)) : bool :=
  existsb (String.eqb k) (keys d).

(** [d[k] = v]: replaces in place, or appends a new key at the end. *)
Fixpoint set (k : string) (v : V) (d : list (string * V)) : list (string * V) :=
  match d with
  | [] => [(k, v)]
  | (k', v') :: r =>
      if String.eqb k k' then (k, v) :: r else (k', v') :: set k v r
  end.

(** [d.update(u)] *)
Definition update (d u : list (string * V)) : list (string * V) :=
  fold_left (fun acc kv => set (fst kv) (snd kv) acc) u d.

(** [{k: getattr(k) for k in names}] where [getattr] reads [d]. *)
Definition comprehension (names : list string) (d : list (string * V))
  : list (string * V) :=
  fold_left (fun acc k => match get k d with
                          | Some v => set k v acc
                          | None => acc
                          end) names [].
End Dict.
End Dict.

(* ------------------------------------------------------------------ *)
(** ** Data model *)

(** Primitive numeric element types of netCDF-4. *)
Inductive datatype := i1 | i2 | i4 | i8 | u1 | u2 | u4 | u8 | f4 | f8.

Definition is_integer (dt : datatype) : bool :=
  match dt with
  | f4 | f8 => false
  | _ => true
  end.

Inductive att_value :=
| att_text (s : string)
| att_numbers (l : list Q).

(** A numpy array: shape and elements in row-major (C) order. *)
Record ndarray := mk_ndarray { shape : list nat; flat : list Q }.

Inductive Dimension := Unlimited | Fixed (n : nat).

Definition isunlimited (d : Dimension) : bool :=
  match d with Unlimited => true | Fixed _ => false end.

(** [len(dim)]; [copy_dims] consults it for fixed dimensions only. *)
Definition len (d : Dimension) : nat :=
  match d with Unlimited => 0 | Fixed n => n end.

Record NcVariable := mk_Variable {
  v_datatype : datatype;
  v_dimensions : list string;
  v_attrs : list (string * att_value);
  v_data : ndarray
}.

Inductive Group := mk_Group {
  g_attrs : list (string * att_value);
  g_dimensions : list (string * Dimension);
  g_variables : list (string * NcVariable);
  g_groups : list (string * Group)
}.

Definition empty_group : Group := mk_Group [] [] [] [].

Definition with_attrs (g : Group) a :=
  mk_Group a (g_dimensions g) (g_variables g) (g_groups g).
Definition with_dimensions (g : Group) d :=
  mk_Group (g_attrs g) d (g_variables g) (g_groups g).
Definition with_variables (g : Group) v :=
  mk_Group (g_attrs g) (g_dimensions g) v (g_groups g).
Definition with_groups (g : Group) c :=
  mk_Group (g_attrs g) (g_dimensions g) (g_variables g) c.

(** Number of group levels below and including [g]. *)
Fixpoint depth (g : Group) : nat :=
  S (list_max (map (fun c => depth (snd c)) (g_groups g))).

(** The group reached from [g] by a path of child names. *)
Fixpoint get_at (p : list string) (g : Group) : option Group :=
  match p with
  | [] => Some g
  | n :: p' =>
      match Dict.get n (g_groups g) with
      | Some c => get_at p' c
      | None => None
      end
  end.

(** Replace the group at path [p] (nothing happens on a dead path). *)
Fixpoint set_at (p : list string) (new : Group) (g : Group) : Group :=
  match p with
  | [] => new
  | n :: p' =>
      match Dict.get n (g_groups g) with
      | Some c => with_groups g (Dict.set n (set_at p' new c) (g_groups g))
      | None => g
      end
  end.

(** Names of the dimensions declared in the strict ancestors of the
    group at path [p], outermost first: what the parent walk of
    netCDF4's dimension lookup can find above that group. *)
Fixpoint dimensions_above (p : list string) (g : Group) : list string :=
  match p with
  | [] => []
  | n :: p' =>
      Dict.keys (g_dimensions g)
      ++ match Dict.get n (g_groups g) with
         | Some c => dimensions_above p' c
         | None => []
         end
  end.

(** Group names and nesting only. *)
Inductive topology := Topo (children : list (string * topology)).

Fixpoint topology_of (g : Group) : topology :=
  Topo (map (fun c => (fst c, topology_of (snd c))) (g_groups g)).

(* ------------------------------------------------------------------ *)
(** ** numpy: element conversion, indexing and mean along an axis *)

(** [x.astype(dt)] on one element. *)
Definition astype (dt : datatype) (x : Q) : Q :=
  if is_integer dt then inject_Z (Z.quot (Qnum x) (Zpos (Qden x)))
  else Qred x.

Definition prod (l : list nat) : nat := fold_right Nat.mul 1 l.




Definition sum_list (l : list Q) : Q := fold_right Qplus 0%Q l.

(** Unweighted arithmetic mean. *)
Definition mean_list (l : list Q) : Q :=
  (sum_list l / inject_Z (Z.of_nat (List.length l)))%Q.

Definition remove_axis {A} (axis : nat) (l : list A) : list A :=
  firstn axis l ++ skipn (S axis) l.


(** [a.mean(axis=axis)], for [axis < a.ndim]. *)
Definition mean_axis (a : ndarray) (axis : nat) : ndarray :=
  let outer := prod (firstn axis (shape a)) in
  let n := nth axis (shape a) 0 in
  let inner := prod (skipn (S axis) (shape a)) in
  mk_ndarray
    (remove_axis axis (shape a))
    (flat_map
       (fun o =>
          map (fun i =>
                 mean_list
                   (map (fun j => nth ((o * n + j) * inner + i) (flat a) 0%Q)
                        (seq 0 n)))
              (seq 0 inner))
       (seq 0 outer)).

Arguments mean_axis : simpl never.

(** [dims.index(name)] *)
Fixpoint index (name : string) (dims : list string) : option nat :=
  match dims with
  | [] => None
  | d :: r => if String.eqb d name then Some 0 else option_map S (index name r)
  end.

(* ------------------------------------------------------------------ *)
(** ** Exceptions, and a state monad that keeps the state on a raise *)

Inductive exn :=
| DimensionNotFound (name : string)  (* ValueError: cannot find dimension *)
| NameInUse (name : string)          (* RuntimeError: name in use *)
| NotInList (name : string)          (* ValueError of tuple.index *)
| AxisError (axis : nat)             (* numpy: axis out of bounds *)
| ShapeMismatch                      (* data does not conform to the variable *)
| InvalidHandle                      (* group or variable no longer there *)
| RecursionError.

Inductive result (A : Type) :=
| Ok (a : A)
| Raise (e : exn).
Arguments Ok {A} a.
Arguments Raise {A} e.

Definition M (S A : Type) : Type := S -> result A * S.

Definition ret {S A} (a : A) : M S A := fun s => (Ok a, s).

Definition raise {S A} (e : exn) : M S A := fun s => (Raise e, s).

Definition bind {S A B} (m : M S A) (k : A -> M S B) : M S B :=
  fun s => match m s with
           | (Ok a, s') => k a s'
           | (Raise e, s') => (Raise e, s')
           end.

Declare Scope monad_scope.
Delimit Scope monad_scope with monad.
Notation "x <- m ;; k" := (bind m (fun x => k))
  (at level 61, m at next level, right associativity) : monad_scope.
Notation "m ;; k" := (bind m (fun _ => k))
  (at level 61, right associativity) : monad_scope.
Local Open Scope monad_scope.

Definition gets {S A} (f : S -> A) : M S A := fun s => (Ok (f s), s).

Definition modify {S} (f : S -> S) : M S unit := fun s => (Ok tt, f s).

(** [for x in l: body(x)] *)
Definition for_each {S B} (body : B -> M S unit) : list B -> M S unit :=
  fix go (l : list B) : M S unit :=
    match l with
    | [] => ret tt
    | x :: r => body x ;; go r
    end.

(** [continue] as the last statement of a loop body. *)
Definition continue {S} : M S unit := ret tt.

(* ------------------------------------------------------------------ *)
(** ** netCDF4: what each method does to the group it is called on *)

Definition TIME : string := "time".

(** A variable as [createVariable] leaves it: no attribute, no record. *)
Definition new_variable (dt : datatype) (dims : list string) : NcVariable :=
  mk_Variable dt dims [] (mk_ndarray (map (fun _ => 0) dims) []).

(** [group.setncatts(d)] *)
Definition setncatts_g (d : list (string * att_value)) : M Group unit :=
  modify (fun g => with_attrs g (Dict.update (g_attrs g) d)).

(** [group.createDimension(name, size)]; [size = None] is unlimited. *)
Definition createDimension_g (name : string) (size : option nat) : M Group unit :=
  fun g =>
    if Dict.mem name (g_dimensions g) then (Raise (NameInUse name), g)
    else
      let dim := match size with None => Unlimited | Some n => Fixed n end in
      (Ok tt, with_dimensions g (g_dimensions g ++ [(name, dim)])).

(** [group.createVariable(name, dt, dims)]: every dimension name is
    looked up in the group and then in its parents ([above]). *)
Definition createVariable_g (above : list string)
    (name : string) (dt : datatype) (dims : list string) : M Group unit :=
  fun g =>
    match find (fun d => negb (Dict.mem d (g_dimensions g)
                               || existsb (String.eqb d) above)) dims with
    | Some d => (Raise (DimensionNotFound d), g)
    | None =>
        if Dict.mem name (g_variables g) then (Raise (NameInUse name), g)
        else (Ok tt, with_variables g
                       (g_variables g ++ [(name, new_variable dt dims)]))
    end.

(** Apply [f] to the variable [name] of the group. *)
Definition on_variable (name : string) (f : NcVariable -> result NcVariable)
  : M Group unit :=
  fun g =>
    match Dict.get name (g_variables g) with
    | None => (Raise InvalidHandle, g)
    | Some v =>
        match f v with
        | Ok v' => (Ok tt, with_variables g (Dict.set name v' (g_variables g)))
        | Raise e => (Raise e, g)
        end
    end.

(** [var.setncatts(d)] *)
Definition var_setncatts_g (name : string) (d : list (string * att_value))
  : M Group unit :=
  on_variable name (fun v =>
    Ok (mk_Variable (v_datatype v) (v_dimensions v)
                    (Dict.update (v_attrs v) d) (v_data v))).

(** [var[:] = data]: the array must have one axis per dimension of the
    variable; its elements are converted to the variable's type. *)
Definition var_assign_g (name : string) (data : ndarray) : M Group unit :=
  on_variable name (fun v =>
    if List.length (shape data) =? List.length (v_dimensions v) then
      Ok (mk_Variable (v_datatype v) (v_dimensions v) (v_attrs v)
            (mk_ndarray (shape data) (map (astype (v_datatype v)) (flat data))))
    else Raise ShapeMismatch).

(** [group.createGroup(name)]: an existing group is returned as it is. *)
Definition createGroup_g (name : string) : M Group unit :=
  modify (fun g =>
    if Dict.mem name (g_groups g) then g
    else with_groups g (g_groups g ++ [(name, empty_group)])).

(* ------------------------------------------------------------------ *)
(** ** The two open datasets and handles into them *)

Inductive file := SrcFile | DstFile.

Record store := mk_store { src_ds : Group; dst_ds : Group }.

Record handle := mk_handle { h_file : file; h_path : list string }.

(** A variable object: its group and its name. *)
Record var_handle := mk_var_handle { vh_group : handle; vh_name : string }.

Definition root (f : file) : handle := mk_handle f [].

Definition child (h : handle) (name : string) : handle :=
  mk_handle (h_file h) (h_path h ++ [name]).

Definition dataset (f : file) (s : store) : Group :=
  match f with SrcFile => src_ds s | DstFile => dst_ds s end.

Definition with_dataset (f : file) (g : Group) (s : store) : store :=
  match f with
  | SrcFile => mk_store g (dst_ds s)
  | DstFile => mk_store (src_ds s) g
  end.

Definition get_group (h : handle) (s : store) : option Group :=
  get_at (h_path h) (dataset (h_file h) s).

Definition set_group (h : handle) (g : Group) (s : store) : store :=
  with_dataset (h_file h) (set_at (h_path h) g (dataset (h_file h) s)) s.

(** Run a group-level action on the group a handle denotes. *)
Definition at_handle {A} (h : handle) (m : M Group A) : M store A :=
  fun s =>
    match get_group h s with
    | None => (Raise InvalidHandle, s)
    | Some g => let (r, g') := m g in (r, set_group h g' s)
    end.

(** Dimension names declared in the parents of the group [h] denotes. *)
Definition parent_dimensions (h : handle) (s : store) : list string :=
  dimensions_above (h_path h) (dataset (h_file h) s).

(** *** The methods, on handles *)

Definition dimensions_items (grp : handle) : M store (list (string * Dimension)) :=
  at_handle grp (gets g_dimensions).

Definition variables_items (grp : handle) : M store (list (string * NcVariable)) :=
  at_handle grp (gets g_variables).

(** [grp.groups.items()]: names with the child group objects. *)
Definition groups_items (grp : handle) : M store (list (string * handle)) :=
  at_handle grp (gets (fun g => map (fun c => (fst c, child grp (fst c)))
                                    (g_groups g))).

(** [{attr: grp.getncattr(attr) for attr in grp.ncattrs()}] *)
Definition ncattrs_dict (grp : handle) : M store (list (string * att_value)) :=
  at_handle grp (gets (fun g => Dict.comprehension (Dict.keys (g_attrs g))
                                                   (g_attrs g))).

(** [{k: var.getncattr(k) for k in var.ncattrs()}] *)
Definition var_ncattrs_dict (var : NcVariable) : list (string * att_value) :=
  Dict.comprehension (Dict.keys (v_attrs var)) (v_attrs var).

(** [name in grp.dimensions] *)
Definition has_dimension (grp : handle) (name : string) : M store bool :=
  at_handle grp (gets (fun g => Dict.mem name (g_dimensions g))).

Definition setncatts (grp : handle) (d : list (string * att_value)) : M store unit :=
  at_handle grp (setncatts_g d).

Definition createDimension (grp : handle) (name : string) (size : option nat)
  : M store unit :=
  at_handle grp (createDimension_g name size).

Definition createVariable (grp : handle) (name : string) (dt : datatype)
    (dims : list string) : M store var_handle :=
  fun s =>
    (at_handle grp (createVariable_g (parent_dimensions grp s) name dt dims) ;;
     ret (mk_var_handle grp name)) s.

Definition var_setncatts (v : var_handle) (d : list (string * att_value))
  : M store unit :=
  at_handle (vh_group v) (var_setncatts_g (vh_name v) d).

Definition var_assign (v : var_handle) (data : ndarray) : M store unit :=
  at_handle (vh_group v) (var_assign_g (vh_name v) data).

Definition createGroup (grp : handle) (name : string) : M store handle :=
  at_handle grp (createGroup_g name) ;; ret (child grp name).

(** [dims.index(name)] and [data.mean(axis=axis)] as steps that may raise. *)
Definition tuple_index {S} (name : string) (dims : list string) : M S nat :=
  match index name dims with
  | Some i => ret i
  | None => raise (NotInList name)
  end.

Definition mean {S} (data : ndarray) (axis : nat) : M S ndarray :=
  if axis <? List.length (shape data) then ret (mean_axis data axis)
  else raise (AxisError axis).

(* ------------------------------------------------------------------ *)
(** ** The notebook's functions *)

Definition copy_dims (src_group dst_group : handle) : M store unit :=
  items <- dimensions_items src_group ;;
  for_each (fun '(dim_name, dim) =>
    if String.eqb dim_name TIME then
      (* Skip time dimension entirely to avoid duplicates *)
      continue
    else
      present <- has_dimension dst_group dim_name ;;
      if (present : bool) then continue
      else if isunlimited dim then
        createDimension dst_group dim_name None
      else
        createDimension dst_group dim_name (Some (len dim)))
    items.

Definition copy_vars (src_group dst_group : handle) : M store unit :=
  items <- variables_items src_group ;;
  for_each (fun '(var_name, var) =>
    let dims := v_dimensions var in
    (* Skip time coordinate variable *)
    if String.eqb var_name TIME then continue
    (* Copy lat/lon coordinate variables as-is *)
    else if existsb (String.eqb var_name) ["lat"; "lon"] then
      new_var <- createVariable dst_group var_name (v_datatype var) dims ;;
      var_setncatts new_var (var_ncattrs_dict var) ;;
      var_assign new_var (v_data var)
    (* For other variables that have time dimension: average over time
       and remove it *)
    else if existsb (String.eqb TIME) dims then
      let new_dims := filter (fun d => negb (String.eqb d TIME)) dims in
      new_var <- createVariable dst_group var_name (v_datatype var) new_dims ;;
      var_setncatts new_var (var_ncattrs_dict var) ;;
      let data := v_data var in
      time_axis <- tuple_index TIME dims ;;
      mean_data <- mean data time_axis ;;
      var_assign new_var mean_data
    else
      (* Variables without time dimension copy as-is *)
      new_var <- createVariable dst_group var_name (v_datatype var) dims ;;
      var_setncatts new_var (var_ncattrs_dict var) ;;
      var_assign new_var (v_data var))
    items.

(** The recursion follows the source tree held in the store; [fuel]
    bounds the nesting of calls. *)
Fixpoint recursive_copy (fuel : nat) (src_group dst_group : handle)
  : M store unit :=
  match fuel with
  | 0 => raise RecursionError
  | S fuel' =>
      attrs <- ncattrs_dict src_group ;;
      setncatts dst_group attrs ;;
      copy_dims src_group dst_group ;;
      copy_vars src_group dst_group ;;
      subgroups <- groups_items src_group ;;
      for_each (fun '(name, subgrp) =>
        dst_subgrp <- createGroup dst_group name ;;
        recursive_copy fuel' subgrp dst_subgrp)
        subgroups
  end.

(** The last code cell: [src] is the dataset read from disk, [dst] a
    newly created, empty one; the call starts at the two roots. *)
Definition notebook (src : Group) : result unit * store :=
  recursive_copy (depth src) (root SrcFile) (root DstFile)
                 (mk_store src empty_group).

(* ------------------------------------------------------------------ *)
(** ** The same functions with the destination group as the only state

    [copy_dims_g], [copy_vars_g] and [recursive_copy_g] run the loops of
    the notebook on a destination group held as a value; the source group
    is a value read once.  The handle-level functions above are shown to
    compute exactly these (section "Simulation"). *)

Definition copy_dims_g (src : Group) : M Group unit :=
  for_each (fun '(dim_name, dim) =>
    if String.eqb dim_name TIME then continue
    else
      present <- gets (fun g => Dict.mem dim_name (g_dimensions g)) ;;
      if (present : bool) then continue
      else if isunlimited dim then createDimension_g dim_name None
      else createDimension_g dim_name (Some (len dim)))
    (g_dimensions src).

Definition copy_var_g (above : list string) (var_name : string)
    (var : NcVariable) : M Group unit :=
  let dims := v_dimensions var in
  if String.eqb var_name TIME then continue
  else if existsb (String.eqb var_name) ["lat"; "lon"] then
    createVariable_g above var_name (v_datatype var) dims ;;
    var_setncatts_g var_name (var_ncattrs_dict var) ;;
    var_assign_g var_name (v_data var)
  else if existsb (String.eqb TIME) dims then
    let new_dims := filter (fun d => negb (String.eqb d TIME)) dims in
    createVariable_g above var_name (v_datatype var) new_dims ;;
    var_setncatts_g var_name (var_ncattrs_dict var) ;;
    time_axis <- tuple_index TIME dims ;;
    mean_data <- mean (v_data var) time_axis ;;
    var_assign_g var_name mean_data
  else
    createVariable_g above var_name (v_datatype var) dims ;;
    var_setncatts_g var_name (var_ncattrs_dict var) ;;
    var_assign_g var_name (v_data var).

Definition copy_vars_g (above : list string) (src : Group) : M Group unit :=
  for_each (fun '(var_name, var) => copy_var_g above var_name var)
           (g_variables src).

(** Run an action on the child group [name] and put the result back. *)
Definition in_child {A} (name : string) (m : Group -> M Group A) : M Group A :=
  fun g =>
    match Dict.get name (g_groups g) with
    | None => (Raise InvalidHandle, g)
    | Some c =>
        let (r, c') := m g c in
        (r, with_groups g (Dict.set name c' (g_groups g)))
    end.

Fixpoint recursive_copy_g (above : list string) (src : Group) : M Group unit :=
  setncatts_g (Dict.comprehension (Dict.keys (g_attrs src)) (g_attrs src)) ;;
  copy_dims_g src ;;
  copy_vars_g above src ;;
  for_each (fun c =>
    createGroup_g (fst c) ;;
    in_child (fst c) (fun g =>
      recursive_copy_g (above ++ Dict.keys (g_dimensions g)) (snd c)))
    (g_groups src).

(* ------------------------------------------------------------------ *)
(** ** The destination tree in closed form *)

Fixpoint all_some {A} (l : list (option A)) : option (list A) :=
  match l with
  | [] => Some []
  | None :: _ => None
  | Some a :: r =>
      match all_some r with
      | Some r' => Some (a :: r')
      | None => None
      end
  end.

Definition not_time {V} (kv : string * V) : bool :=
  negb (String.eqb (fst kv) TIME).

(** The attributes a variable or group receives through
    [setncatts({k: getncattr(k) for k in ncattrs()})]. *)
Definition copied_attrs (a : list (string * att_value)) : list (string * att_value) :=
  Dict.update [] (Dict.comprehension (Dict.keys a) a).

(** The variable written for [v] with dimension tuple [dims] and array
    [data], when every name of [dims] is in [visible] and the array has
    one axis per name. *)
Definition stored (visible : list string) (v : NcVariable)
    (dims : list string) (data : ndarray) : option NcVariable :=
  if forallb (fun d => existsb (String.eqb d) visible) dims
     && (List.length (shape data) =? List.length dims)
  then Some (mk_Variable (v_datatype v) dims (copied_attrs (v_attrs v))
               (mk_ndarray (shape data)
                           (map (astype (v_datatype v)) (flat data))))
  else None.

Definition averaged_variable (visible : list string) (name : string)
    (v : NcVariable) : option NcVariable :=
  let dims := v_dimensions v in
  if existsb (String.eqb name) ["lat"; "lon"] then
    stored visible v dims (v_data v)
  else if existsb (String.eqb TIME) dims then
    match index TIME dims with
    | Some axis =>
        if axis <? List.length (shape (v_data v)) then
          stored visible v (filter (fun d => negb (String.eqb d TIME)) dims)
                 (mean_axis (v_data v) axis)
        else None
    | None => None
    end
  else stored visible v dims (v_data v).

Fixpoint averaged (above : list string) (g : Group) : option Group :=
  let dims := filter not_time (g_dimensions g) in
  let visible := above ++ Dict.keys dims in
  match all_some (map (fun nv => option_map (pair (fst nv))
                                   (averaged_variable visible (fst nv) (snd nv)))
                      (filter not_time (g_variables g))),
        all_some (map (fun c => option_map (pair (fst c))
                                  (averaged visible (snd c)))
                      (g_groups g))
  with
  | Some vars, Some subgroups =>
      Some (mk_Group (copied_attrs (g_attrs g)) dims vars subgroups)
  | _, _ => None
  end.

(* ------------------------------------------------------------------ *)
(** ** Well-formed inputs *)

Fixpoint distinct (l : list string) : bool :=
  match l with
  | [] => true
  | x :: r => negb (existsb (String.eqb x) r) && distinct r
  end.

Definition Q_same (x y : Q) : bool :=
  Z.eqb (Qnum x) (Qnum y) && Pos.eqb (Qden x) (Qden y).

(** A variable as a file holds it: attribute names are distinct, no
    dimension is used twice, the array has one axis per dimension and
    every element is a value of the variable's type. *)
Definition well_formed_variable (v : NcVariable) : bool :=
  distinct (Dict.keys (v_attrs v))
  && distinct (v_dimensions v)
  && (List.length (shape (v_data v)) =? List.length (v_dimensions v))
  && forallb (fun x => Q_same (astype (v_datatype v) x) x) (flat (v_data v)).

(** The four maps of every group are maps (no key twice) and every
    variable is well formed. *)
Fixpoint well_formed (g : Group) : bool :=
  distinct (Dict.keys (g_attrs g))
  && distinct (Dict.keys (g_dimensions g))
  && distinct (Dict.keys (g_variables g))
  && distinct (Dict.keys (g_groups g))
  && forallb (fun nv => well_formed_variable (snd nv)) (g_variables g)
  && forallb (fun c => well_formed (snd c)) (g_groups g).

(** Every dimension name used by a variable is declared in the
    variable's group or in an ancestor ([above]). *)
Fixpoint closed (above : list string) (g : Group) : bool :=
  let visible := above ++ Dict.keys (g_dimensions g) in
  forallb (fun nv => forallb (fun d => existsb (String.eqb d) visible)
                             (v_dimensions (snd nv)))
          (g_variables g)
  && forallb (fun c => closed visible (snd c)) (g_groups g).

(** No dimension and no variable of the tree is named "time". *)
Fixpoint time_free (g : Group) : bool :=
  negb (Dict.mem TIME (g_dimensions g))
  && negb (Dict.mem TIME (g_variables g))
  && forallb (fun c => time_free (snd c)) (g_groups g).


(* ------------------------------------------------------------------ *)
(** ** Where the libraries compute what the model computes

    [var[:]] returns a masked array, unpacked when the variable carries
    packing attributes, and [mean] works in floating point.  The
    predicates of this section single out the series of values on which
    none of that changes a value: nothing is masked, nothing is packed,
    and neither the sum, in whatever order it is formed, nor the
    quotient is rounded. *)










(* ------------------------------------------------------------------ *)
(** ** What a run leaves behind *)

(** The values of the longest prefix without [None], and whether that
    is the whole list. *)
Fixpoint while_some {A} (l : list (option A)) : list A * bool :=
  match l with
  | [] => ([], true)
  | None :: _ => ([], false)
  | Some a :: r => let (r', all) := while_some r in (a :: r', all)
  end.

(** The entries up to and including the first one marked [false], and
    whether there is none. *)
Fixpoint until_stopped {A} (l : list (A * bool)) : list A * bool :=
  match l with
  | [] => ([], true)
  | (a, true) :: r => let (r', all) := until_stopped r in (a :: r', all)
  | (a, false) :: _ => ([a], false)
  end.

(** What the copy of [g] into a new group has written when it ends, and
    whether it ended normally.  It stops at the first variable, in the
    order of the traversal, that asks for a dimension the destination
    does not have: the group then holds its attributes, its dimensions
    and the variables before that one; subgroups are entered only after
    every variable of the group was written, and the subgroup in which
    the copy stopped is the last one. *)
Fixpoint partial_copy (above : list string) (g : Group) : Group * bool :=
  let dims := filter not_time (g_dimensions g) in
  let visible := above ++ Dict.keys dims in
  let (vars, vars_done) :=
    while_some (map (fun nv => option_map (pair (fst nv))
                                 (averaged_variable visible (fst nv) (snd nv)))
                    (filter not_time (g_variables g))) in
  let (subgroups, done) :=
    if vars_done then
      until_stopped (map (fun c => let (c', ok) := partial_copy visible (snd c) in
                                   ((fst c, c'), ok))
                         (g_groups g))
    else ([], false) in
  (mk_Group (copied_attrs (g_attrs g)) dims vars subgroups, done).



(** The group-level recursion into a new destination group leaves
    [partial_copy]'s group, and ends normally or with the dimension
    lookup error as its boolean says. *)
Definition run_as_partial (above : list string) (g : Group) : Prop :=
  snd (recursive_copy_g above g empty_group) = fst (partial_copy above g)
  /\ if snd (partial_copy above g)
     then fst (recursive_copy_g above g empty_group) = Ok tt
     else exists x,
            fst (recursive_copy_g above g empty_group)
            = Raise (DimensionNotFound x).

(* ------------------------------------------------------------------ *)
(** ** Relating the two levels *)

(** On every store satisfying [I], the handle-level program [p] does to
    the store what the group-level program [m] does to the group [h]
    denotes, and returns the same result. *)
Definition simulates {A} (h : handle) (I : store -> Prop)
    (p : M store A) (m : M Group A) : Prop :=
  forall s, I s -> p s = at_handle h m s.

(** What the loops of [recursive_copy src dst] keep true of the store:
    the source group is [g], the destination group exists and the
    dimensions visible above it are [above]. *)
Definition copy_invariant (src dst : handle) (g : Group) (above : list string)
    (s : store) : Prop :=
  get_group src s = Some g
  /\ get_group dst s <> None
  /\ parent_dimensions dst s = above.

(** The dimension map [copy_dims] leaves in a destination group whose
    dimension map was [acc], for the source dimensions [l]. *)
Definition copied_dimensions (acc l : list (string * Dimension))
  : list (string * Dimension) :=
  fold_left (fun acc kv =>
               if String.eqb (fst kv) TIME then acc
               else if Dict.mem (fst kv) acc then acc
               else acc ++ [kv]) l acc.

(** The group-level recursion into a new destination group ends as
    [averaged] says, or raises when [averaged] has no value. *)
Definition run_as_averaged (above : list string) (g : Group) : Prop :=
  match averaged above g with
  | Some d => recursive_copy_g above g empty_group = (Ok tt, d)
  | None => exists e d, recursive_copy_g above g empty_group = (Raise e, d)
  end.

(* ------------------------------------------------------------------ *)
(** ** Sample datasets *)

(** The scenario of the notebook: a record dimension and a grid at the
    root, one group of observations below it. *)
Definition precipitation : NcVariable :=
  mk_Variable f4 ["time"; "lat"; "lon"] [("units", att_text "mm/hr")]
    (mk_ndarray [3; 5; 5]
       (repeat 1%Q 25 ++ repeat 2%Q 25 ++ repeat 3%Q 25)).

Definition latitude : NcVariable :=
  mk_Variable f4 ["lat"] [("units", att_text "degrees_north")]
    (mk_ndarray [5] [10; 20; 30; 40; 50]%Q).

Definition demo_tree : Group :=
  mk_Group [("title", att_text "demo")]
    [("time", Unlimited); ("lat", Fixed 5); ("lon", Fixed 5)]
    [("lat", latitude)]
    [("observed", mk_Group [] [] [("precipitation", precipitation)] [])].

(** An integer variable along time. *)
Definition counts : NcVariable :=
  mk_Variable i4 ["time"; "lat"] [] (mk_ndarray [2; 2] [1; 1; 2; 2]%Q).

Definition counts_tree : Group :=
  mk_Group [] [("time", Fixed 2); ("lat", Fixed 2)] [("counts", counts)] [].

(** A coordinate variable "lat" that varies along time. *)
Definition moving_latitude : NcVariable :=
  mk_Variable f4 ["time"; "lat"] [] (mk_ndarray [2; 2] [1; 2; 3; 4]%Q).

Definition moving_tree : Group :=
  mk_Group [("title", att_text "drifting grid")]
    [("time", Fixed 2); ("lat", Fixed 2)]
    [("lat", moving_latitude)] [].



(** A tree that has been averaged already. *)
Definition averaged_tree : Group :=
  mk_Group [("title", att_text "demo")]
    [("lat", Fixed 5); ("lon", Fixed 5)]
    [("lat", latitude)]
    [("observed",
      mk_Group [] []
        [("precipitation",
          mk_Variable f4 ["lat"; "lon"] [("units", att_text "mm/hr")]
            (mk_ndarray [5; 5] (repeat 2%Q 25)))] [])].

(** A handle-level program that leaves the source dataset as it was,
    whatever its result. *)
Definition preserves_source {A} (m : M store A) : Prop :=
  forall s, src_ds (snd (m s)) = src_ds s.

(** A group-level program that keeps [P] true of the destination group,
    whatever its result. *)
Definition preserves_g {A} (P : Group -> Prop) (m : M Group A) : Prop :=
  forall d, P d -> P (snd (m d)).

(* ------------------------------------------------------------------ *)
(** ** When a run completes *)

(** The dimension names [copy_vars] asks [createVariable] for: the
    source tuple for "lat" and "lon", the tuple without "time" for every
    other variable. *)
Definition requested_dimensions (name : string) (v : NcVariable) : list string :=
  if existsb (String.eqb name) ["lat"; "lon"] then v_dimensions v
  else filter (fun d => negb (String.eqb d TIME)) (v_dimensions v).

(** Every variable that is copied asks only for dimensions the
    destination has by then: those of [above] and the dimensions of the
    variable's own group other than "time". *)
Fixpoint copyable (above : list string) (g : Group) : bool :=
  let visible := above ++ Dict.keys (filter not_time (g_dimensions g)) in
  forallb (fun nv => forallb (fun d => existsb (String.eqb d) visible)
                             (requested_dimensions (fst nv) (snd nv)))
          (filter not_time (g_variables g))
  && forallb (fun c => copyable visible (snd c)) (g_groups g).

Definition is_some {A} (o : option A) : bool :=
  match o with Some _ => true | None => false end.

(** Dimension [x] is asked for by the variable and is not visible. *)
Definition asked_and_missing (visible : list string) (x : string)
    (name : string) (v : NcVariable) : bool :=
  existsb (String.eqb x) (requested_dimensions name v)
  && negb (existsb (String.eqb x) visible).

(** Some variable of the tree that is copied asks for [x] where the
    destination does not have it. *)
Fixpoint lookup_fails (x : string) (above : list string) (g : Group) : bool :=
  let visible := above ++ Dict.keys (filter not_time (g_dimensions g)) in
  existsb (fun nv => asked_and_missing visible x (fst nv) (snd nv))
          (filter not_time (g_variables g))
  || existsb (fun c => lookup_fails x visible (snd c)) (g_groups g).

(** Group [d'] differs from [d] at most in the variable [k]. *)
Definition same_but_variable (k : string) (d d' : Group) : Prop :=
  g_attrs d' = g_attrs d
  /\ g_dimensions d' = g_dimensions d
  /\ g_groups d' = g_groups d
  /\ forall n, n <> k -> Dict.get n (g_variables d') = Dict.get n (g_variables d).

(** Group [d'] has everything [d] had, except that it may have more
    variables. *)
Definition extends_variables (d d' : Group) : Prop :=
  g_attrs d' = g_attrs d
  /\ g_dimensions d' = g_dimensions d
  /\ g_groups d' = g_groups d
  /\ forall n, Dict.mem n (g_variables d) = true ->
               Dict.get n (g_variables d') = Dict.get n (g_variables d).

(* ------------------------------------------------------------------ *)
(** ** Dimensions that cannot grow *)

(** The dimensions declared in the groups on the path [p], from [g]
    down to and including the group at [p]: the dimensions a variable of
    that group can be defined on. *)
Fixpoint dimensions_along (p : list string) (g : Group)
  : list (string * Dimension) :=
  g_dimensions g
  ++ match p with
     | [] => []
     | n :: p' =>
         match Dict.get n (g_groups g) with
         | Some c => dimensions_along p' c
         | None => []
         end
     end.

(** None of the dimensions is unlimited.  In a file, a write along an
    unlimited dimension can lengthen it, and with it every variable
    defined on it; on fixed dimensions a write changes the variable
    written and nothing else, which is what the model does. *)
Definition all_fixed (dims : list (string * Dimension)) : bool :=
  forallb (fun kv => negb (isunlimited (snd kv))) dims.

(** A destination that has its grid and one variable on it, beside the
    source of integer counts. *)
Definition cell_bounds : NcVariable :=
  mk_Variable i4 ["lat"] [] (mk_ndarray [2] [7; 8]%Q).

Definition gridded_store : store :=
  mk_store counts_tree
    (mk_Group [("note", att_text "kept")] [("lat", Fixed 2)]
              [("bounds", cell_bounds)] []).
(* ================================================================== *)
(** * Properties *)

(** ** Dictionaries *)

Section DictFacts.
Context {V : Type}.
Implicit Types (d : list (string * V)) (k : string) (v : V).

Lemma existsb_eqb_In k (l : list string) :
  existsb (String.eqb k) l = true <-> In k l.
Proof.
  rewrite existsb_exists. split.
  - intros (x & Hx & E). apply String.eqb_eq in E. now subst.
  - intros H. exists k. split; [assumption | apply String.eqb_refl].
Qed.

Lemma mem_In k d : Dict.mem k d = true <-> In k (Dict.keys d).
Proof. apply existsb_eqb_In. Qed.

Lemma mem_false_In k d : Dict.mem k d = false <-> ~ In k (Dict.keys d).
Proof.
  rewrite <- mem_In. destruct (Dict.mem k d); split; congruence.
Qed.

Lemma mem_cons k k' v d :
  Dict.mem k ((k', v) :: d) = String.eqb k k' || Dict.mem k d.
Proof. reflexivity. Qed.

Lemma mem_app k d d' :
  Dict.mem k (d ++ d') = Dict.mem k d || Dict.mem k d'.
Proof. unfold Dict.mem, Dict.keys. now rewrite map_app, existsb_app. Qed.

Lemma get_mem k d : Dict.mem k d = false <-> Dict.get k d = None.
Proof.
  induction d as [|[k' v'] r IH]; simpl; [tauto|].
  rewrite mem_cons. destruct (String.eqb k k'); simpl; [|exact IH].
  split; discriminate.
Qed.

Lemma get_Some_mem k d v : Dict.get k d = Some v -> Dict.mem k d = true.
Proof.
  intros H. destruct (Dict.mem k d) eqn:E; [reflexivity|].
  apply get_mem in E. congruence.
Qed.

Lemma get_In k d v : Dict.get k d = Some v -> In (k, v) d.
Proof.
  induction d as [|[k' v'] r IH]; simpl; [discriminate|].
  destruct (String.eqb_spec k k') as [->|N].
  - intros [= ->]. now left.
  - intros H. right. auto.
Qed.

Lemma get_set_same k v d : Dict.get k (Dict.set k v d) = Some v.
Proof.
  induction d as [|[k' v'] r IH]; simpl.
  - now rewrite String.eqb_refl.
  - destruct (String.eqb k k') eqn:E; simpl.
    + now rewrite String.eqb_refl.
    + now rewrite E.
Qed.

Lemma get_set_other k k' v d :
  k <> k' -> Dict.get k (Dict.set k' v d) = Dict.get k d.
Proof.
  intros N. induction d as [|[k2 v2] r IH]; simpl.
  - apply String.eqb_neq in N. now rewrite N.
  - destruct (String.eqb_spec k' k2) as [->|N2]; simpl.
    + apply String.eqb_neq in N. now rewrite N.
    + now rewrite IH.
Qed.

Lemma set_set k v1 v2 d : Dict.set k v2 (Dict.set k v1 d) = Dict.set k v2 d.
Proof.
  induction d as [|[k' v'] r IH]; simpl.
  - now rewrite String.eqb_refl.
  - destruct (String.eqb k k') eqn:E; simpl.
    + now rewrite String.eqb_refl.
    + now rewrite E, IH.
Qed.

Lemma set_get_id k v d : Dict.get k d = Some v -> Dict.set k v d = d.
Proof.
  induction d as [|[k' v'] r IH]; simpl; [discriminate|].
  destruct (String.eqb_spec k k') as [->|N].
  - now intros [= ->].
  - intros H. now rewrite IH.
Qed.

Lemma set_fresh k v d : Dict.mem k d = false -> Dict.set k v d = d ++ [(k, v)].
Proof.
  induction d as [|[k' v'] r IH]; simpl; [reflexivity|].
  rewrite mem_cons. destruct (String.eqb k k'); simpl; [discriminate|].
  intros H. now rewrite IH.
Qed.

Lemma set_last k v v0 d :
  Dict.mem k d = false -> Dict.set k v (d ++ [(k, v0)]) = d ++ [(k, v)].
Proof.
  induction d as [|[k' v'] r IH]; simpl.
  - now rewrite String.eqb_refl.
  - rewrite mem_cons. destruct (String.eqb k k'); simpl; [discriminate|].
    intros H. now rewrite IH.
Qed.

Lemma get_last k v d :
  Dict.mem k d = false -> Dict.get k (d ++ [(k, v)]) = Some v.
Proof.
  induction d as [|[k' v'] r IH]; simpl.
  - now rewrite String.eqb_refl.
  - rewrite mem_cons. destruct (String.eqb k k'); simpl; [discriminate|].
    exact IH.
Qed.

Lemma keys_set k v d : Dict.mem k d = true -> Dict.keys (Dict.set k v d) = Dict.keys d.
Proof.
  induction d as [|[k' v'] r IH]; simpl; [discriminate|].
  rewrite mem_cons. destruct (String.eqb_spec k k') as [->|N]; simpl.
  - reflexivity.
  - intros H. f_equal. now apply IH.
Qed.

Lemma distinct_app (l1 l2 : list string) :
  distinct (l1 ++ l2) = true <->
  distinct l1 = true /\ distinct l2 = true
  /\ forall x, In x l1 -> ~ In x l2.
Proof.
  induction l1 as [|a l1 IH]; simpl.
  - intuition.
  - rewrite !andb_true_iff, !negb_true_iff, IH.
    rewrite existsb_app, orb_false_iff.
    split.
    + intros ((H1 & H2) & H3 & H4 & H5). repeat split; auto.
      intros x [<-|Hx]; [|now apply H5].
      intros Hin. apply existsb_eqb_In in Hin. congruence.
    + intros ((H1 & H2) & H3 & H4). repeat split; auto.
      destruct (existsb (String.eqb a) l2) eqn:E; [|reflexivity].
      apply existsb_eqb_In in E. exfalso. apply (H4 a); auto.
Qed.

Lemma distinct_get k v d :
  distinct (Dict.keys d) = true -> In (k, v) d -> Dict.get k d = Some v.
Proof.
  induction d as [|[k' v'] r IH]; simpl; [tauto|].
  rewrite andb_true_iff, negb_true_iff. intros [Hn Hd] [[= -> ->]|Hin].
  - now rewrite String.eqb_refl.
  - destruct (String.eqb_spec k k') as [->|N]; [|auto].
    exfalso. assert (In k' (Dict.keys r)) as Hk
      by (apply (in_map fst) in Hin; exact Hin).
    apply existsb_eqb_In in Hk. congruence.
Qed.

Lemma update_distinct d u :
  distinct (Dict.keys (d ++ u)) = true -> Dict.update d u = d ++ u.
Proof.
  unfold Dict.update. revert d.
  induction u as [|[k v] r IH]; intros d H; simpl.
  - now rewrite app_nil_r.
  - replace (d ++ (k, v) :: r) with ((d ++ [(k, v)]) ++ r) in *
      by now rewrite <- app_assoc.
    rewrite set_fresh.
    + now apply IH.
    + unfold Dict.keys in H. rewrite !map_app in H.
      apply distinct_app in H. destruct H as (H & _).
      apply distinct_app in H. destruct H as (_ & _ & H).
      apply mem_false_In. intros Hin. apply (H k Hin). now left.
Qed.

Lemma comprehension_distinct d :
  distinct (Dict.keys d) = true -> Dict.comprehension (Dict.keys d) d = d.
Proof.
  unfold Dict.comprehension. intros Hd.
  enough (G : forall suf pre, d = pre ++ suf ->
            fold_left (fun acc k => match Dict.get k d with
                                    | Some v => Dict.set k v acc
                                    | None => acc
                                    end) (Dict.keys suf) pre = d)
    by (apply (G d []); reflexivity).
  induction suf as [|[k v] r IH]; intros pre E; simpl.
  - now rewrite app_nil_r in E.
  - rewrite (distinct_get k v d Hd) by (subst d; apply in_elt).
    rewrite set_fresh.
    + apply IH. now rewrite <- app_assoc.
    + subst d. unfold Dict.keys in Hd. rewrite map_app in Hd.
      apply distinct_app in Hd. destruct Hd as (_ & _ & H).
      apply mem_false_In. intros Hin. apply (H k Hin). now left.
Qed.
End DictFacts.

Lemma copied_attrs_distinct a :
  distinct (Dict.keys a) = true -> copied_attrs a = a.
Proof.
  intros H. unfold copied_attrs. rewrite comprehension_distinct by assumption.
  now apply (update_distinct []).
Qed.

(** ** Groups, paths and the store *)

Lemma Group_induction (P : Group -> Prop) :
  (forall a d v c, Forall (fun x => P (snd x)) c -> P (mk_Group a d v c)) ->
  forall g, P g.
Proof.
  intros step. fix IH 1. intros [a d v c]. apply step.
  induction c as [|[n g] r IHr]; constructor; [apply IH | exact IHr].
Qed.

Lemma with_groups_same g : with_groups g (g_groups g) = g.
Proof. now destruct g. Qed.

Lemma get_at_snoc p name g :
  get_at (p ++ [name]) g =
  match get_at p g with
  | Some gp => Dict.get name (g_groups gp)
  | None => None
  end.
Proof.
  revert g. induction p as [|n p IH]; intros g; simpl.
  - now destruct (Dict.get name (g_groups g)).
  - destruct (Dict.get n (g_groups g)); [apply IH | reflexivity].
Qed.

Lemma get_set_at p new g :
  get_at p g <> None -> get_at p (set_at p new g) = Some new.
Proof.
  revert g. induction p as [|n p IH]; intros g H; simpl in *; [reflexivity|].
  destruct (Dict.get n (g_groups g)) as [c|] eqn:E; [|congruence].
  simpl. rewrite get_set_same. now apply IH.
Qed.

Lemma set_set_at p new1 new2 g :
  set_at p new2 (set_at p new1 g) = set_at p new2 g.
Proof.
  revert g. induction p as [|n p IH]; intros g; simpl; [reflexivity|].
  destruct (Dict.get n (g_groups g)) as [c|] eqn:E; simpl.
  - rewrite get_set_same, set_set, IH. reflexivity.
  - now rewrite E.
Qed.

Lemma set_get_at p g gp : get_at p g = Some gp -> set_at p gp g = g.
Proof.
  revert g. induction p as [|n p IH]; intros g; simpl.
  - now intros [= ->].
  - destruct (Dict.get n (g_groups g)) as [c|] eqn:E; [|discriminate].
    intros H. rewrite (IH _ H), (set_get_id _ _ _ E).
    apply with_groups_same.
Qed.

Lemma set_at_snoc p name new g gp :
  get_at p g = Some gp ->
  Dict.mem name (g_groups gp) = true ->
  set_at (p ++ [name]) new g =
  set_at p (with_groups gp (Dict.set name new (g_groups gp))) g.
Proof.
  revert g. induction p as [|n p IH]; intros g; simpl.
  - intros [= ->] Hm. destruct (Dict.get name (g_groups gp)) eqn:E;
      [reflexivity|]. apply get_mem in E. congruence.
  - destruct (Dict.get n (g_groups g)) as [c|] eqn:E; [|discriminate].
    intros H Hm. now rewrite (IH _ H Hm).
Qed.

Lemma dimensions_above_set_at p new g :
  dimensions_above p (set_at p new g) = dimensions_above p g.
Proof.
  revert g. induction p as [|n p IH]; intros g; simpl; [reflexivity|].
  destruct (Dict.get n (g_groups g)) as [c|] eqn:E; simpl.
  - now rewrite get_set_same, IH.
  - now rewrite E.
Qed.

Lemma dimensions_above_snoc p name g gp :
  get_at p g = Some gp ->
  dimensions_above (p ++ [name]) g =
  dimensions_above p g ++ Dict.keys (g_dimensions gp).
Proof.
  revert g. induction p as [|n p IH]; intros g; simpl.
  - intros [= ->].
    destruct (Dict.get name (g_groups gp)); now rewrite app_nil_r.
  - destruct (Dict.get n (g_groups g)) as [c|] eqn:E; [|discriminate].
    intros H. now rewrite (IH _ H), app_assoc.
Qed.

Lemma get_set_group h g s :
  get_group h s <> None -> get_group h (set_group h g s) = Some g.
Proof.
  unfold get_group, set_group. destruct h as [[] p]; simpl;
    apply get_set_at.
Qed.

Lemma set_set_group h g1 g2 s :
  set_group h g2 (set_group h g1 s) = set_group h g2 s.
Proof.
  unfold set_group. destruct h as [[] p], s; simpl;
    now rewrite set_set_at.
Qed.

Lemma set_get_group h g s : get_group h s = Some g -> set_group h g s = s.
Proof.
  unfold get_group, set_group. destruct h as [[] p], s; simpl;
    intros H; now rewrite (set_get_at _ _ _ H).
Qed.

Lemma get_set_group_other h h' g s :
  h_file h <> h_file h' -> get_group h (set_group h' g s) = get_group h s.
Proof.
  unfold get_group, set_group. destruct h as [[] p], h' as [[] p'], s; simpl;
    congruence.
Qed.

Lemma parent_dimensions_set_group h g s :
  parent_dimensions h (set_group h g s) = parent_dimensions h s.
Proof.
  unfold parent_dimensions, set_group. destruct h as [[] p], s; simpl;
    apply dimensions_above_set_at.
Qed.

Lemma src_ds_set_group h g s :
  h_file h = DstFile -> src_ds (set_group h g s) = src_ds s.
Proof. unfold set_group. destruct h as [[] p]; simpl; congruence. Qed.

Lemma get_group_child h name s :
  get_group (child h name) s =
  match get_group h s with
  | Some g => Dict.get name (g_groups g)
  | None => None
  end.
Proof. unfold get_group, child. simpl. apply get_at_snoc. Qed.

Lemma set_group_child h name new g s :
  get_group h s = Some g ->
  Dict.mem name (g_groups g) = true ->
  set_group (child h name) new s =
  set_group h (with_groups g (Dict.set name new (g_groups g))) s.
Proof.
  unfold get_group, set_group, child. simpl. intros H Hm.
  now rewrite (set_at_snoc _ _ _ _ _ H Hm).
Qed.

Lemma parent_dimensions_child h name g s :
  get_group h s = Some g ->
  parent_dimensions (child h name) s =
  parent_dimensions h s ++ Dict.keys (g_dimensions g).
Proof.
  unfold get_group, parent_dimensions, child. simpl.
  apply dimensions_above_snoc.
Qed.

(** ** Simulation: the handle-level functions compute the group-level ones *)

Section Simulation.
Variable h : handle.
Variable I : store -> Prop.
Hypothesis I_valid : forall s, I s -> get_group h s <> None.
Hypothesis I_stable : forall s g, I s -> I (set_group h g s).

Lemma simulates_at_handle {A} (m : M Group A) :
  simulates h I (at_handle h m) m.
Proof. intros s _. reflexivity. Qed.

Lemma simulates_ret {A} (a : A) : simulates h I (ret a) (ret a).
Proof.
  intros s Hs. unfold at_handle, ret.
  destruct (get_group h s) as [g|] eqn:E; [|now apply I_valid in Hs].
  now rewrite (set_get_group _ _ _ E).
Qed.

Lemma simulates_raise {A} e : simulates h I (@raise store A e) (raise e).
Proof.
  intros s Hs. unfold at_handle, raise.
  destruct (get_group h s) as [g|] eqn:E; [|now apply I_valid in Hs].
  now rewrite (set_get_group _ _ _ E).
Qed.

Lemma simulates_bind {A B} (p : M store A) (k : A -> M store B)
    (m : M Group A) (km : A -> M Group B) :
  simulates h I p m -> (forall a, simulates h I (k a) (km a)) ->
  simulates h I (bind p k) (bind m km).
Proof.
  intros Hp Hk s Hs. unfold bind. rewrite (Hp s Hs). unfold at_handle.
  destruct (get_group h s) as [g|] eqn:E; [|now apply I_valid in Hs].
  destruct (m g) as [[a|e] g1] eqn:Em; [|reflexivity].
  rewrite (Hk a) by now apply I_stable.
  unfold at_handle. rewrite get_set_group by congruence.
  destruct (km a g1) as [r g2]. now rewrite set_set_group.
Qed.

Lemma simulates_for_each {B} (body : B -> M store unit)
    (body_g : B -> M Group unit) (l : list B) :
  (forall x, In x l -> simulates h I (body x) (body_g x)) ->
  simulates h I (for_each body l) (for_each body_g l).
Proof.
  induction l as [|x r IH]; intros H; simpl.
  - apply simulates_ret.
  - apply simulates_bind.
    + apply H. now left.
    + intros _. apply IH. intros y Hy. apply H. now right.
Qed.
End Simulation.

Lemma copy_invariant_valid src dst g above s :
  copy_invariant src dst g above s -> get_group dst s <> None.
Proof. now intros (_ & H & _). Qed.

Lemma copy_invariant_stable src dst g above s g' :
  h_file src <> h_file dst ->
  copy_invariant src dst g above s ->
  copy_invariant src dst g above (set_group dst g' s).
Proof.
  intros Hf (H1 & H2 & H3). repeat split.
  - now rewrite get_set_group_other.
  - now rewrite get_set_group.
  - now rewrite parent_dimensions_set_group.
Qed.

Section CopySimulation.
Variables (src dst : handle) (g : Group) (above : list string).
Hypothesis files : h_file src <> h_file dst.

Local Abbreviation I := (copy_invariant src dst g above).
Local Abbreviation I_valid := (copy_invariant_valid src dst g above).
Local Abbreviation I_stable :=
  (fun s g' => copy_invariant_stable src dst g above s g' files).

(** Reading the source group leaves the store as it is. *)
Lemma simulates_read {A B} (f : Group -> A) (k : A -> M store B)
    (km : M Group B) :
  simulates dst I (k (f g)) km ->
  simulates dst I (bind (at_handle src (gets f)) k) km.
Proof.
  intros Hk s Hs. unfold bind, at_handle at 1, gets.
  destruct Hs as (Hsrc & Hs'). rewrite Hsrc, (set_get_group _ _ _ Hsrc).
  apply Hk. now split.
Qed.

Lemma simulates_createVariable {B} name dt dims (k : var_handle -> M store B)
    (km : M Group B) :
  simulates dst I (k (mk_var_handle dst name)) km ->
  simulates dst I (bind (createVariable dst name dt dims) k)
                  (bind (createVariable_g above name dt dims) (fun _ => km)).
Proof.
  intros Hk s Hs. unfold bind at 1 2, createVariable, at_handle at 1, ret.
  pose proof Hs as (_ & Hv & Ha). rewrite Ha.
  unfold at_handle, bind.
  destruct (get_group dst s) as [gd|] eqn:E; [|congruence].
  destruct (createVariable_g above name dt dims gd) as [[[]|e] g1]; [|reflexivity].
  rewrite (Hk _ (I_stable _ _ Hs)). unfold at_handle.
  rewrite get_set_group by congruence.
  destruct (km g1) as [r g2]. now rewrite set_set_group.
Qed.

Lemma simulates_copy_dims :
  simulates dst I (copy_dims src dst) (copy_dims_g g).
Proof.
  unfold copy_dims, dimensions_items, copy_dims_g.
  apply simulates_read.
  apply (simulates_for_each dst I I_valid I_stable).
  intros [dim_name dim] _.
  destruct (String.eqb dim_name TIME).
  - apply (simulates_ret dst I I_valid).
  - apply (simulates_bind dst I I_valid I_stable).
    + apply simulates_at_handle.
    + intros present. destruct present.
      * apply (simulates_ret dst I I_valid).
      * destruct (isunlimited dim); apply simulates_at_handle.
Qed.

Lemma simulates_store_variable name dt dims attrs data :
  simulates dst I
    (new_var <- createVariable dst name dt dims ;;
     var_setncatts new_var attrs ;;
     var_assign new_var data)
    (createVariable_g above name dt dims ;;
     var_setncatts_g name attrs ;;
     var_assign_g name data).
Proof.
  apply simulates_createVariable.
  apply (simulates_bind dst I I_valid I_stable).
  - apply simulates_at_handle.
  - intros _. apply simulates_at_handle.
Qed.

Lemma simulates_copy_vars :
  simulates dst I (copy_vars src dst) (copy_vars_g above g).
Proof.
  unfold copy_vars, variables_items, copy_vars_g.
  apply simulates_read.
  apply (simulates_for_each dst I I_valid I_stable).
  intros [var_name var] _. unfold copy_var_g.
  destruct (String.eqb var_name TIME).
  { apply (simulates_ret dst I I_valid). }
  destruct (existsb (String.eqb var_name) ["lat"; "lon"]).
  { apply simulates_store_variable. }
  destruct (existsb (String.eqb TIME) (v_dimensions var)).
  2: { apply simulates_store_variable. }
  apply simulates_createVariable.
  apply (simulates_bind dst I I_valid I_stable).
  { apply simulates_at_handle. }
  intros _. apply (simulates_bind dst I I_valid I_stable).
  { unfold tuple_index. destruct (index TIME (v_dimensions var)).
    - apply (simulates_ret dst I I_valid).
    - apply (simulates_raise dst I I_valid). }
  intros time_axis. apply (simulates_bind dst I I_valid I_stable).
  { unfold mean. destruct (time_axis <? _).
    - apply (simulates_ret dst I I_valid).
    - apply (simulates_raise dst I I_valid). }
  intros mean_data. apply simulates_at_handle.
Qed.
End CopySimulation.

Lemma depth_child n c g : In (n, c) (g_groups g) -> depth c < depth g.
Proof.
  intros Hin. destruct g as [a d v cs]. simpl in *.
  assert (Forall (fun k => k <= list_max (map (fun c => depth (snd c)) cs))
                 (map (fun c => depth (snd c)) cs)) as HF
    by now apply list_max_le.
  rewrite Forall_forall in HF.
  specialize (HF (depth c)). apply Nat.lt_succ_r, HF.
  apply (in_map (fun c => depth (snd c)) cs (n, c) Hin).
Qed.

Lemma well_formed_child n c g :
  well_formed g = true -> In (n, c) (g_groups g) ->
  well_formed c = true /\ Dict.get n (g_groups g) = Some c.
Proof.
  intros Hwf Hin. destruct g as [a d v cs]. simpl in *.
  rewrite !andb_true_iff in Hwf.
  destruct Hwf as (((((_ & _) & _) & Hd) & _) & Hc). split.
  - rewrite forallb_forall in Hc. apply (Hc (n, c) Hin).
  - now apply distinct_get.
Qed.

Lemma get_mem_true {V} k (d : list (string * V)) :
  Dict.mem k d = true -> Dict.get k d <> None.
Proof. intros H E. apply get_mem in E. congruence. Qed.

Lemma for_each_map {S B C} (f : B -> C) (body : C -> M S unit) (l : list B) :
  for_each body (map f l) = for_each (fun x => body (f x)) l.
Proof.
  induction l as [|x r IH]; simpl; [reflexivity|]. now rewrite IH.
Qed.

(** Working on a child through its own handle is working on it inside
    its parent. *)
Lemma at_handle_child {A} h name (m : Group -> M Group A) gd s :
  get_group h s = Some gd ->
  at_handle (child h name) (m gd) s = at_handle h (in_child name m) s.
Proof.
  intros H. unfold at_handle, in_child. rewrite get_group_child, H.
  destruct (Dict.get name (g_groups gd)) as [c|] eqn:E.
  - destruct (m gd c) as [r c']. f_equal.
    apply set_group_child; [assumption | now apply get_Some_mem in E].
  - now rewrite (set_get_group _ _ _ H).
Qed.

Lemma createGroup_g_mem name gd :
  Dict.mem name (g_groups (snd (createGroup_g name gd))) = true.
Proof.
  unfold createGroup_g, modify. simpl.
  destruct (Dict.mem name (g_groups gd)) eqn:E; [assumption|].
  simpl. rewrite mem_app, mem_cons, String.eqb_refl.
  now rewrite orb_true_r.
Qed.

Lemma createGroup_g_dimensions name gd :
  g_dimensions (snd (createGroup_g name gd)) = g_dimensions gd.
Proof.
  unfold createGroup_g, modify. simpl.
  now destruct (Dict.mem name (g_groups gd)).
Qed.

(** The handle-level recursion, given enough fuel for the depth of the
    source group, is the group-level recursion at the destination
    handle. *)
Lemma simulates_recursive_copy fuel :
  forall src dst g above,
    h_file src <> h_file dst ->
    well_formed g = true ->
    depth g <= fuel ->
    simulates dst (copy_invariant src dst g above)
              (recursive_copy fuel src dst) (recursive_copy_g above g).
Proof.
  induction fuel as [|fuel IH]; intros src dst g above files Hwf Hd.
  { destruct g; simpl in Hd; lia. }
  pose proof (copy_invariant_valid src dst g above) as I_valid.
  pose proof (fun s g' => copy_invariant_stable src dst g above s g' files)
    as I_stable.
  change (recursive_copy (S fuel) src dst) with
    (attrs <- ncattrs_dict src ;;
     setncatts dst attrs ;;
     copy_dims src dst ;;
     copy_vars src dst ;;
     subgroups <- groups_items src ;;
     for_each (fun '(name, subgrp) =>
       dst_subgrp <- createGroup dst name ;;
       recursive_copy fuel subgrp dst_subgrp) subgroups).
  replace (recursive_copy_g above g) with
    (setncatts_g (Dict.comprehension (Dict.keys (g_attrs g)) (g_attrs g)) ;;
     copy_dims_g g ;;
     copy_vars_g above g ;;
     for_each (fun c =>
       createGroup_g (fst c) ;;
       in_child (fst c) (fun gd =>
         recursive_copy_g (above ++ Dict.keys (g_dimensions gd)) (snd c)))
       (g_groups g)) by now destruct g.
  unfold ncattrs_dict. apply simulates_read.
  apply (simulates_bind dst _ I_valid I_stable).
  { apply simulates_at_handle. }
  intros _. apply (simulates_bind dst _ I_valid I_stable).
  { now apply simulates_copy_dims. }
  intros _. apply (simulates_bind dst _ I_valid I_stable).
  { now apply simulates_copy_vars. }
  intros _. unfold groups_items. apply simulates_read.
  rewrite for_each_map.
  apply (simulates_for_each dst _ I_valid I_stable).
  intros [name c] Hin s Hs. simpl fst. simpl snd.
  destruct (well_formed_child _ _ _ Hwf Hin) as (Hwfc & Hget).
  pose proof (depth_child _ _ _ Hin) as Hdc.
  pose proof Hs as (Hsrc & Hdst & Habove).
  destruct (get_group dst s) as [gd|] eqn:Egd; [clear Hdst|congruence].
  unfold bind at 1, createGroup, bind at 1, at_handle at 1, ret.
  rewrite Egd.
  destruct (createGroup_g name gd) as [r gd1] eqn:Ecg.
  assert (r = Ok tt) as -> by (unfold createGroup_g, modify in Ecg; congruence).
  pose proof (createGroup_g_mem name gd) as Hmem.
  pose proof (createGroup_g_dimensions name gd) as Hdims.
  rewrite Ecg in Hmem, Hdims. simpl in Hmem, Hdims.
  set (s1 := set_group dst gd1 s).
  assert (get_group dst s1 = Some gd1) as Hgd1
    by (apply get_set_group; congruence).
  assert (copy_invariant src dst g above s1) as Hs1 by now apply I_stable.
  rewrite (IH (child src name) (child dst name) c
              (above ++ Dict.keys (g_dimensions gd1))); try assumption; try lia.
  - rewrite (at_handle_child dst name
               (fun gd => recursive_copy_g (above ++ Dict.keys (g_dimensions gd)) c)
               gd1 s1 Hgd1).
    unfold at_handle at 2, bind. rewrite Egd, Ecg. fold s1.
    unfold at_handle. rewrite Hgd1.
    destruct (in_child name _ gd1) as [r2 g2].
    unfold s1. now rewrite set_set_group.
  - destruct Hs1 as (Hsrc1 & _ & Habove1). repeat split.
    + rewrite get_group_child, Hsrc1. exact Hget.
    + rewrite get_group_child, Hgd1. apply get_mem_true. exact Hmem.
    + rewrite (parent_dimensions_child _ _ _ _ Hgd1). now rewrite Habove1.
Qed.

(** The run of the last cell, through the group-level recursion. *)
Lemma notebook_run src :
  well_formed src = true ->
  notebook src =
  (fst (recursive_copy_g [] src empty_group),
   mk_store src (snd (recursive_copy_g [] src empty_group))).
Proof.
  intros Hwf. unfold notebook.
  rewrite (simulates_recursive_copy (depth src) (root SrcFile) (root DstFile)
             src []); try easy.
  unfold at_handle. simpl.
  now destruct (recursive_copy_g [] src empty_group).
Qed.

(** ** The group-level loops in closed form *)

Lemma for_each_cons {S B} (body : B -> M S unit) x r s :
  for_each body (x :: r) s =
  match body x s with
  | (Ok _, s') => for_each body r s'
  | (Raise e, s') => (Raise e, s')
  end.
Proof. reflexivity. Qed.

Lemma copy_dims_body_run n dim d :
  (if String.eqb n TIME then continue
   else
     present <- gets (fun g => Dict.mem n (g_dimensions g)) ;;
     if (present : bool) then continue
     else if isunlimited dim then createDimension_g n None
     else createDimension_g n (Some (len dim))) d
  = (Ok tt,
     if String.eqb n TIME then d
     else if Dict.mem n (g_dimensions d) then d
     else with_dimensions d (g_dimensions d ++ [(n, dim)])).
Proof.
  destruct (String.eqb n TIME); [reflexivity|].
  unfold bind, gets.
  destruct (Dict.mem n (g_dimensions d)) eqn:E; [reflexivity|].
  destruct dim; simpl; unfold createDimension_g; now rewrite E.
Qed.

(** [copy_dims] never raises, whatever the destination already holds. *)
Lemma copy_dims_g_run src d :
  copy_dims_g src d =
  (Ok tt, with_dimensions d (copied_dimensions (g_dimensions d) (g_dimensions src))).
Proof.
  unfold copy_dims_g, copied_dimensions.
  generalize (g_dimensions src) as l. intros l. revert d.
  induction l as [|[n dim] r IH]; intros d.
  - now destruct d.
  - rewrite for_each_cons, copy_dims_body_run. simpl fold_left.
    destruct (String.eqb n TIME); [apply IH|].
    destruct (Dict.mem n (g_dimensions d)) eqn:E; [apply IH|].
    now rewrite IH.
Qed.

Lemma copied_dimensions_fresh l : forall acc,
  distinct (Dict.keys l) = true ->
  (forall n, In n (Dict.keys l) -> Dict.mem n acc = false) ->
  copied_dimensions acc l = acc ++ filter not_time l.
Proof.
  unfold copied_dimensions.
  induction l as [|[n dim] r IH]; intros acc Hd Hn; simpl.
  - now rewrite app_nil_r.
  - simpl in Hd. rewrite andb_true_iff, negb_true_iff in Hd.
    destruct Hd as (Hnr & Hd). unfold not_time at 1. simpl fst.
    destruct (String.eqb n TIME); simpl.
    + apply IH; [assumption|]. intros k Hk. apply Hn. now right.
    + rewrite (Hn n) by now left.
      rewrite IH; [now rewrite <- app_assoc | assumption |].
      intros k Hk. rewrite mem_app, (Hn k) by now right.
      simpl. rewrite mem_cons. unfold Dict.mem at 1. simpl.
      rewrite orb_false_r. apply String.eqb_neq. intros ->.
      apply existsb_eqb_In in Hk. congruence.
Qed.

Lemma visible_spec above (dims : list (string * Dimension)) names :
  find (fun d => negb (Dict.mem d dims || existsb (String.eqb d) above)) names
  = None
  <-> forallb (fun d => existsb (String.eqb d) (above ++ Dict.keys dims)) names
      = true.
Proof.
  induction names as [|d r IH]; simpl; [tauto|].
  rewrite existsb_app. fold (Dict.mem d dims).
  rewrite (orb_comm (existsb _ above)).
  destruct (Dict.mem d dims || existsb (String.eqb d) above); simpl.
  - exact IH.
  - split; discriminate.
Qed.

(** [createVariable], [setncatts] and the assignment, on a group that
    has no variable of that name yet. *)
Lemma store_variable_run above name v dims data d :
  Dict.mem name (g_variables d) = false ->
  match stored (above ++ Dict.keys (g_dimensions d)) v dims data with
  | Some v' =>
      (createVariable_g above name (v_datatype v) dims ;;
       var_setncatts_g name (var_ncattrs_dict v) ;;
       var_assign_g name data) d
      = (Ok tt, with_variables d (g_variables d ++ [(name, v')]))
  | None =>
      exists e d',
      (createVariable_g above name (v_datatype v) dims ;;
       var_setncatts_g name (var_ncattrs_dict v) ;;
       var_assign_g name data) d = (Raise e, d')
  end.
Proof.
  intros Hfresh. unfold stored, bind, createVariable_g.
  destruct (find _ dims) as [bad|] eqn:Ef.
  - assert (forallb (fun d0 => existsb (String.eqb d0)
                       (above ++ Dict.keys (g_dimensions d))) dims = false) as ->.
    { destruct (forallb _ dims) eqn:E; [|reflexivity].
      apply visible_spec in E. congruence. }
    simpl. eauto.
  - apply visible_spec in Ef. rewrite Ef, Hfresh. simpl andb.
    assert (forall k : unit -> M Group unit,
              (let (r, s') :=
                 var_setncatts_g name (var_ncattrs_dict v)
                   (with_variables d
                      (g_variables d ++ [(name, new_variable (v_datatype v) dims)]))
               in match r with
                  | Ok a => k a s'
                  | Raise e => (Raise e, s')
                  end)
              = k tt (with_variables d
                        (g_variables d
                         ++ [(name, mk_Variable (v_datatype v) dims
                                      (copied_attrs (v_attrs v))
                                      (mk_ndarray (map (fun _ => 0) dims) []))])))
      as Hset.
    { intros k. unfold var_setncatts_g, on_variable. simpl g_variables.
      rewrite get_last, set_last by assumption. reflexivity. }
    rewrite Hset. clear Hset.
    unfold var_assign_g, on_variable. simpl g_variables.
    rewrite get_last by assumption. simpl.
    destruct (List.length (shape data) =? List.length dims).
    + rewrite set_last by assumption. reflexivity.
    + eauto.
Qed.

Lemma copy_var_g_run above name v d :
  String.eqb name TIME = false ->
  Dict.mem name (g_variables d) = false ->
  match averaged_variable (above ++ Dict.keys (g_dimensions d)) name v with
  | Some v' =>
      copy_var_g above name v d
      = (Ok tt, with_variables d (g_variables d ++ [(name, v')]))
  | None => exists e d', copy_var_g above name v d = (Raise e, d')
  end.
Proof.
  intros Hname Hfresh. unfold copy_var_g, averaged_variable. rewrite Hname.
  destruct (existsb (String.eqb name) ["lat"; "lon"]).
  { now apply store_variable_run. }
  destruct (existsb (String.eqb TIME) (v_dimensions v)).
  2: { now apply store_variable_run. }
  set (new_dims := filter (fun d0 => negb (String.eqb d0 TIME)) (v_dimensions v)).
  assert (forall data,
            find (fun d0 => negb (Dict.mem d0 (g_dimensions d)
                                  || existsb (String.eqb d0) above)) new_dims
            <> None ->
            stored (above ++ Dict.keys (g_dimensions d)) v new_dims data = None)
    as Hnone.
  { intros data Hf. unfold stored.
    destruct (forallb _ new_dims) eqn:E; [|reflexivity].
    apply visible_spec in E. congruence. }
  assert (forall data,
            find (fun d0 => negb (Dict.mem d0 (g_dimensions d)
                                  || existsb (String.eqb d0) above)) new_dims
            = None ->
            stored (above ++ Dict.keys (g_dimensions d)) v new_dims data
            = if List.length (shape data) =? List.length new_dims
              then Some (mk_Variable (v_datatype v) new_dims
                           (copied_attrs (v_attrs v))
                           (mk_ndarray (shape data)
                              (map (astype (v_datatype v)) (flat data))))
              else None) as Hsome.
  { intros data Hf. unfold stored. apply visible_spec in Hf. now rewrite Hf. }
  unfold bind, createVariable_g, var_setncatts_g, var_assign_g, on_variable,
    tuple_index, mean, ret, raise.
  destruct (find _ new_dims) as [bad|] eqn:Ef.
  { destruct (index TIME (v_dimensions v)); [|eauto].
    destruct (_ <? _); [rewrite Hnone by discriminate|]; eauto. }
  rewrite Hfresh. simpl g_variables.
  rewrite get_last, set_last by assumption.
  destruct (index TIME (v_dimensions v)) as [axis|]; [|eauto].
  destruct (axis <? List.length (shape (v_data v))); [|eauto].
  rewrite Hsome by reflexivity. simpl.
  rewrite get_last by assumption. simpl.
  destruct (List.length (remove_axis axis (shape (v_data v)))
            =? List.length new_dims); [|eauto].
  now rewrite set_last.
Qed.

Lemma copy_vars_loop above l : forall d,
  distinct (Dict.keys l) = true ->
  (forall n, In n (Dict.keys l) -> Dict.mem n (g_variables d) = false) ->
  match all_some
          (map (fun nv => option_map (pair (fst nv))
                            (averaged_variable
                               (above ++ Dict.keys (g_dimensions d))
                               (fst nv) (snd nv)))
               (filter not_time l))
  with
  | Some vars =>
      for_each (fun '(n, v) => copy_var_g above n v) l d
      = (Ok tt, with_variables d (g_variables d ++ vars))
  | None =>
      exists e d',
      for_each (fun '(n, v) => copy_var_g above n v) l d = (Raise e, d')
  end.
Proof.
  induction l as [|[n v] r IH]; intros d Hd Hn.
  - simpl. rewrite app_nil_r. now destruct d.
  - simpl in Hd. rewrite andb_true_iff, negb_true_iff in Hd.
    destruct Hd as (Hnr & Hd).
    rewrite for_each_cons. simpl filter. unfold not_time at 1. simpl fst.
    destruct (String.eqb n TIME) eqn:Et; simpl negb; cbv iota.
    + unfold copy_var_g. rewrite Et. unfold continue, ret.
      apply IH; [assumption|]. intros k Hk. apply Hn. now right.
    + simpl map. simpl fst. simpl snd.
      pose proof (copy_var_g_run above n v d Et (Hn n (or_introl eq_refl)))
        as Hstep.
      destruct (averaged_variable _ n v) as [v'|]; simpl.
      * rewrite Hstep.
        specialize (IH (with_variables d (g_variables d ++ [(n, v')])) Hd).
        simpl g_dimensions in IH. simpl g_variables in IH.
        destruct (all_some _) as [vars|].
        -- rewrite IH.
           ++ simpl. now rewrite <- app_assoc.
           ++ intros k Hk. rewrite mem_app, (Hn k) by now right.
              rewrite mem_cons. unfold Dict.mem. simpl.
              rewrite orb_false_r. apply String.eqb_neq. intros ->.
              apply existsb_eqb_In in Hk. congruence.
        -- apply IH. intros k Hk. rewrite mem_app, (Hn k) by now right.
           rewrite mem_cons. unfold Dict.mem. simpl.
           rewrite orb_false_r. apply String.eqb_neq. intros ->.
           apply existsb_eqb_In in Hk. congruence.
      * destruct Hstep as (e & d' & ->). eauto.
Qed.

Lemma bind_ok {S A B} (m : M S A) (k : A -> M S B) s a s' :
  m s = (Ok a, s') -> bind m k s = k a s'.
Proof. unfold bind. now intros ->. Qed.

Lemma bind_raise {S A B} (m : M S A) (k : A -> M S B) s e s' :
  m s = (Raise e, s') -> bind m k s = (Raise e, s').
Proof. unfold bind. now intros ->. Qed.

Lemma subgroup_step above n c d :
  Dict.mem n (g_groups d) = false ->
  (createGroup_g n ;;
   in_child n (fun g =>
     recursive_copy_g (above ++ Dict.keys (g_dimensions g)) c)) d
  = (fst (recursive_copy_g (above ++ Dict.keys (g_dimensions d)) c empty_group),
     with_groups d
       (g_groups d
        ++ [(n, snd (recursive_copy_g (above ++ Dict.keys (g_dimensions d))
                                      c empty_group))])).
Proof.
  intros Hfresh. unfold bind, createGroup_g, modify, in_child.
  rewrite Hfresh. simpl g_groups. simpl g_dimensions.
  rewrite get_last by assumption.
  destruct (recursive_copy_g _ c empty_group) as [r c'].
  now rewrite set_last.
Qed.

Lemma subgroups_loop above l :
  Forall (fun c => forall above', run_as_averaged above' (snd c)) l ->
  forall d,
  distinct (Dict.keys l) = true ->
  (forall n, In n (Dict.keys l) -> Dict.mem n (g_groups d) = false) ->
  match all_some
          (map (fun c => option_map (pair (fst c))
                           (averaged (above ++ Dict.keys (g_dimensions d))
                                     (snd c))) l)
  with
  | Some subgroups =>
      for_each (fun c =>
        createGroup_g (fst c) ;;
        in_child (fst c) (fun g =>
          recursive_copy_g (above ++ Dict.keys (g_dimensions g)) (snd c))) l d
      = (Ok tt, with_groups d (g_groups d ++ subgroups))
  | None =>
      exists e d',
      for_each (fun c =>
        createGroup_g (fst c) ;;
        in_child (fst c) (fun g =>
          recursive_copy_g (above ++ Dict.keys (g_dimensions g)) (snd c))) l d
      = (Raise e, d')
  end.
Proof.
  induction l as [|[n c] r IH]; intros HF d Hd Hn.
  - simpl. rewrite app_nil_r. now destruct d.
  - simpl in Hd. rewrite andb_true_iff, negb_true_iff in Hd.
    destruct Hd as (Hnr & Hd).
    inversion HF as [|? ? Hc HFr]; subst.
    specialize (Hc (above ++ Dict.keys (g_dimensions d))). simpl snd in Hc.
    unfold run_as_averaged in Hc.
    assert (Hfresh : Dict.mem n (g_groups d) = false) by (apply Hn; now left).
    assert (forall c',
      (forall k, In k (Dict.keys r) ->
         Dict.mem k (g_groups (with_groups d (g_groups d ++ [(n, c')]))) = false))
      as Hn'.
    { intros c' k Hk. simpl. rewrite mem_app, (Hn k) by now right.
      rewrite mem_cons. unfold Dict.mem. simpl. rewrite orb_false_r.
      apply String.eqb_neq. intros ->. apply existsb_eqb_In in Hk. congruence. }
    rewrite for_each_cons. cbn [fst snd map].
    rewrite (subgroup_step above n c d Hfresh).
    destruct (averaged _ c) as [c'|]; cbn [option_map all_some].
    + rewrite Hc. cbn [fst snd].
      specialize (IH HFr (with_groups d (g_groups d ++ [(n, c')])) Hd (Hn' c')).
      simpl g_dimensions in IH. simpl g_groups in IH.
      destruct (all_some _) as [subgroups|].
      * rewrite IH. simpl. now rewrite <- app_assoc.
      * exact IH.
    + destruct Hc as (e & d' & ->). simpl. eauto.
Qed.

Lemma recursive_copy_g_run g :
  well_formed g = true -> forall above, run_as_averaged above g.
Proof.
  induction g as [a dm v c IH] using Group_induction.
  intros Hwf above. unfold run_as_averaged.
  simpl in Hwf. rewrite !andb_true_iff in Hwf.
  destruct Hwf as (((((Ha & Hdm) & Hv) & Hc) & Hvs) & Hcs).
  assert (HF : Forall (fun c0 => forall above', run_as_averaged above' (snd c0)) c).
  { rewrite Forall_forall in *. intros x Hx above'. apply IH; [assumption|].
    rewrite forallb_forall in Hcs. now apply Hcs. }
  clear IH.
  change (recursive_copy_g above (mk_Group a dm v c)) with
    (setncatts_g (Dict.comprehension (Dict.keys a) a) ;;
     copy_dims_g (mk_Group a dm v c) ;;
     copy_vars_g above (mk_Group a dm v c) ;;
     for_each (fun c0 =>
       createGroup_g (fst c0) ;;
       in_child (fst c0) (fun g =>
         recursive_copy_g (above ++ Dict.keys (g_dimensions g)) (snd c0))) c).
  set (d2 := mk_Group (copied_attrs a) (filter not_time dm) [] []).
  assert (Hdims : copy_dims_g (mk_Group a dm v c)
                    (mk_Group (copied_attrs a) [] [] []) = (Ok tt, d2)).
  { rewrite copy_dims_g_run. simpl g_dimensions.
    now rewrite (copied_dimensions_fresh dm []). }
  rewrite (bind_ok _ _ _ tt (mk_Group (copied_attrs a) [] [] []))
    by reflexivity.
  rewrite (bind_ok _ _ _ tt d2 Hdims).
  pose proof (copy_vars_loop above v d2 Hv (fun n _ => eq_refl)) as Hvars.
  simpl g_dimensions in Hvars. simpl g_variables in Hvars.
  change (averaged above (mk_Group a dm v c)) with
    (match all_some (map (fun nv => option_map (pair (fst nv))
                            (averaged_variable
                               (above ++ Dict.keys (filter not_time dm))
                               (fst nv) (snd nv)))
                         (filter not_time v)),
           all_some (map (fun c0 => option_map (pair (fst c0))
                            (averaged (above ++ Dict.keys (filter not_time dm))
                                      (snd c0))) c)
     with
     | Some vars, Some subgroups =>
         Some (mk_Group (copied_attrs a) (filter not_time dm) vars subgroups)
     | _, _ => None
     end).
  destruct (all_some (map _ (filter not_time v))) as [vars|].
  2: { destruct Hvars as (e & d' & Hvars).
       rewrite (bind_raise _ _ _ e d' Hvars). eauto. }
  rewrite (bind_ok _ _ _ tt _ Hvars).
  pose proof (subgroups_loop above c HF (with_variables d2 vars) Hc
                (fun n _ => eq_refl)) as Hsubs.
  simpl g_dimensions in Hsubs. simpl g_groups in Hsubs.
  destruct (all_some (map _ c)) as [subgroups|]; exact Hsubs.
Qed.

(** The run of the last cell in closed form. *)
Lemma notebook_averaged src :
  well_formed src = true ->
  match averaged [] src with
  | Some d => notebook src = (Ok tt, mk_store src d)
  | None => exists e d, notebook src = (Raise e, mk_store src d)
  end.
Proof.
  intros Hwf. rewrite (notebook_run src Hwf).
  pose proof (recursive_copy_g_run src Hwf []) as H.
  unfold run_as_averaged in H. destruct (averaged [] src) as [d|].
  - now rewrite H.
  - destruct H as (e & d & ->). now exists e, d.
Qed.

(** Any recursion budget that covers the depth of the source gives the
    run of the last cell: the budget is never exhausted. *)
Lemma notebook_fuel src fuel :
  well_formed src = true ->
  depth src <= fuel ->
  recursive_copy fuel (root SrcFile) (root DstFile) (mk_store src empty_group)
  = notebook src.
Proof.
  intros Hwf Hfuel. unfold notebook.
  rewrite !(simulates_recursive_copy _ (root SrcFile) (root DstFile) src []);
    easy.
Qed.

(** The scenario of the notebook: three time steps of constant fields
    1, 2 and 3 average to the constant field 2; the grid and the
    coordinate variable are copied, "time" is gone. *)
Example notebook_demo :
  notebook demo_tree = (Ok tt, mk_store demo_tree averaged_tree).
Proof. vm_compute. reflexivity. Qed.

(** ** Reading the closed form *)

Lemma averaged_eq above g :
  averaged above g =
  let dims := filter not_time (g_dimensions g) in
  let visible := above ++ Dict.keys dims in
  match all_some (map (fun nv => option_map (pair (fst nv))
                                   (averaged_variable visible (fst nv) (snd nv)))
                      (filter not_time (g_variables g))),
        all_some (map (fun c => option_map (pair (fst c))
                                  (averaged visible (snd c)))
                      (g_groups g))
  with
  | Some vars, Some subgroups =>
      Some (mk_Group (copied_attrs (g_attrs g)) dims vars subgroups)
  | _, _ => None
  end.
Proof. now destruct g. Qed.

Lemma all_some_get {A B} (f : string -> A -> option B) (l : list (string * A)) :
  forall l',
  all_some (map (fun x => option_map (pair (fst x)) (f (fst x) (snd x))) l)
  = Some l' ->
  forall n a, Dict.get n l = Some a ->
  exists b, f n a = Some b /\ Dict.get n l' = Some b.
Proof.
  induction l as [|[k a0] r IH]; intros l' H n a Hget; simpl in *.
  - discriminate.
  - destruct (f k a0) as [b0|] eqn:Ef; simpl in H; [|discriminate].
    destruct (all_some _) as [r'|] eqn:Er; [|discriminate].
    injection H as <-. simpl.
    destruct (String.eqb_spec n k) as [->|N].
    + injection Hget as <-. eauto.
    + now apply IH.
Qed.

Lemma all_some_keys {A B} (f : string -> A -> option B) (l : list (string * A)) :
  forall l',
  all_some (map (fun x => option_map (pair (fst x)) (f (fst x) (snd x))) l)
  = Some l' ->
  Dict.keys l' = Dict.keys l.
Proof.
  induction l as [|[k a0] r IH]; intros l' H; simpl in *.
  - now injection H as <-.
  - destruct (f k a0) as [b0|]; simpl in H; [|discriminate].
    destruct (all_some _) as [r'|] eqn:Er; [|discriminate].
    injection H as <-. simpl. f_equal. now apply IH.
Qed.

Lemma get_filter_not_time {V} n (l : list (string * V)) :
  String.eqb n TIME = false ->
  Dict.get n (filter not_time l) = Dict.get n l.
Proof.
  intros Hn. induction l as [|[k v] r IH]; simpl; [reflexivity|].
  unfold not_time at 1. simpl fst.
  destruct (String.eqb_spec n k) as [->|N].
  - rewrite Hn. simpl. now rewrite String.eqb_refl.
  - destruct (negb (String.eqb k TIME)); simpl; [|exact IH].
    apply String.eqb_neq in N. now rewrite N.
Qed.

Lemma averaged_child above g d n c :
  averaged above g = Some d ->
  Dict.get n (g_groups g) = Some c ->
  exists c',
    Dict.get n (g_groups d) = Some c'
    /\ averaged (above ++ Dict.keys (filter not_time (g_dimensions g))) c
       = Some c'.
Proof.
  rewrite averaged_eq. cbv zeta.
  destruct (all_some (map _ (filter not_time (g_variables g)))) as [vars|];
    [|discriminate].
  destruct (all_some (map _ (g_groups g))) as [subgroups|] eqn:Es;
    [|discriminate].
  intros [= <-] Hget. simpl.
  destruct (all_some_get (fun _ => averaged _) _ _ Es n c Hget) as (c' & H1 & H2).
  eauto.
Qed.

Lemma averaged_variable_get above g d name v :
  averaged above g = Some d ->
  Dict.get name (g_variables g) = Some v ->
  String.eqb name TIME = false ->
  exists v',
    Dict.get name (g_variables d) = Some v'
    /\ averaged_variable
         (above ++ Dict.keys (filter not_time (g_dimensions g))) name v
       = Some v'.
Proof.
  rewrite averaged_eq. cbv zeta.
  destruct (all_some (map _ (filter not_time (g_variables g)))) as [vars|] eqn:Ev;
    [|discriminate].
  destruct (all_some (map _ (g_groups g))) as [subgroups|];
    [|discriminate].
  intros [= <-] Hget Hname. simpl.
  rewrite <- (get_filter_not_time name _ Hname) in Hget.
  destruct (all_some_get (averaged_variable _) _ _ Ev name v Hget)
    as (v' & H1 & H2).
  eauto.
Qed.

Lemma keys_filter_not_time {V} (l : list (string * V)) x :
  In x (Dict.keys (filter not_time l)) -> In x (Dict.keys l) /\ x <> TIME.
Proof.
  unfold Dict.keys. rewrite !in_map_iff.
  intros ([k v] & <- & Hin). apply filter_In in Hin.
  destruct Hin as (Hin & Hnt). split.
  - now exists (k, v).
  - unfold not_time in Hnt. simpl in *. apply negb_true_iff in Hnt.
    now apply String.eqb_neq.
Qed.

(** The destination counterpart of a source group, and what was
    visible when it was written. *)
Lemma averaged_get_at p : forall above g d gp,
  averaged above g = Some d ->
  get_at p g = Some gp ->
  exists above' dp,
    get_at p d = Some dp
    /\ averaged above' gp = Some dp
    /\ (forall x, In x above' ->
          (In x above \/ In x (dimensions_above p g)) /\
          (In x above \/ x <> TIME)).
Proof.
  induction p as [|n p IH]; intros above g d gp Hav Hget; simpl in *.
  - injection Hget as <-. exists above, d. intuition.
  - destruct (Dict.get n (g_groups g)) as [c|] eqn:Ec; [|discriminate].
    destruct (averaged_child _ _ _ _ _ Hav Ec) as (c' & Hc' & Havc).
    destruct (IH _ _ _ _ Havc Hget) as (above' & dp & H1 & H2 & H3).
    exists above', dp. rewrite Hc'. repeat split; try assumption.
    + destruct (H3 x H) as ([Hx|Hx] & _).
      * apply in_app_or in Hx. destruct Hx as [Hx|Hx]; [now left|].
        right. apply in_or_app. left.
        now apply keys_filter_not_time in Hx.
      * right. apply in_or_app. now right.
    + destruct (H3 x H) as (_ & [Hx|Hx]); [|now right].
      apply in_app_or in Hx. destruct Hx as [Hx|Hx]; [now left|].
      right. now apply keys_filter_not_time in Hx.
Qed.

Lemma notebook_ok src s :
  well_formed src = true ->
  notebook src = (Ok tt, s) ->
  src_ds s = src /\ averaged [] src = Some (dst_ds s).
Proof.
  intros Hwf Hrun. pose proof (notebook_averaged src Hwf) as H.
  destruct (averaged [] src) as [d|].
  - rewrite Hrun in H. injection H as ->. now split.
  - destruct H as (e & d & H). congruence.
Qed.

Lemma well_formed_get_at p : forall g gp,
  well_formed g = true -> get_at p g = Some gp -> well_formed gp = true.
Proof.
  induction p as [|n p IH]; intros g gp Hwf Hget; simpl in *.
  - now injection Hget as <-.
  - destruct (Dict.get n (g_groups g)) as [c|] eqn:Ec; [|discriminate].
    apply (IH c); [|assumption].
    apply (well_formed_child n c g Hwf). now apply get_In.
Qed.

Lemma well_formed_get_variable g name v :
  well_formed g = true ->
  Dict.get name (g_variables g) = Some v ->
  well_formed_variable v = true.
Proof.
  intros Hwf Hget. destruct g as [a d vs c]. simpl in *.
  rewrite !andb_true_iff in Hwf.
  destruct Hwf as (((((_ & _) & _) & _) & Hv) & _).
  rewrite forallb_forall in Hv. apply (Hv (name, v)). now apply get_In.
Qed.

(** ** Element conversion *)

Lemma Q_same_eq x y : Q_same x y = true -> x = y.
Proof.
  destruct x as [a b], y as [c d]. unfold Q_same. simpl.
  rewrite andb_true_iff, Z.eqb_eq, Pos.eqb_eq. now intros [-> ->].
Qed.




Lemma astype_fixed dt l :
  forallb (fun x => Q_same (astype dt x) x) l = true -> map (astype dt) l = l.
Proof.
  induction l as [|x r IH]; simpl; [reflexivity|].
  rewrite andb_true_iff. intros [Hx Hr].
  now rewrite (Q_same_eq _ _ Hx), IH.
Qed.

(** ** Variables copied as they are *)

Lemma stored_as_is visible v v' :
  well_formed_variable v = true ->
  stored visible v (v_dimensions v) (v_data v) = Some v' ->
  v' = v
  /\ forallb (fun d => existsb (String.eqb d) visible) (v_dimensions v) = true.
Proof.
  unfold well_formed_variable, stored. rewrite !andb_true_iff.
  intros (((Ha & _) & _) & Ht).
  destruct (forallb _ (v_dimensions v)); simpl; [|discriminate].
  destruct (_ =? _); [|discriminate].
  intros [= <-]. split; [|reflexivity].
  rewrite (copied_attrs_distinct _ Ha), (astype_fixed _ _ Ht).
  now destruct v as [dt dims attrs [sh fl]].
Qed.

Lemma averaged_variable_as_is visible name v v' :
  well_formed_variable v = true ->
  existsb (String.eqb name) ["lat"; "lon"] = true
  \/ existsb (String.eqb TIME) (v_dimensions v) = false ->
  averaged_variable visible name v = Some v' ->
  v' = v
  /\ forallb (fun d => existsb (String.eqb d) visible) (v_dimensions v) = true.
Proof.
  intros Hwf Hcase. unfold averaged_variable.
  destruct (existsb (String.eqb name) ["lat"; "lon"]).
  - now apply stored_as_is.
  - destruct Hcase as [|Hnt]; [discriminate|]. rewrite Hnt.
    now apply stored_as_is.
Qed.

(** A variable of the source and its counterpart in the destination of
    a completed run. *)
Lemma notebook_variable src s p g name v :
  well_formed src = true ->
  notebook src = (Ok tt, s) ->
  get_at p src = Some g ->
  Dict.get name (g_variables g) = Some v ->
  String.eqb name TIME = false ->
  exists visible g' v',
    get_at p (dst_ds s) = Some g'
    /\ Dict.get name (g_variables g') = Some v'
    /\ averaged_variable visible name v = Some v'
    /\ well_formed_variable v = true
    /\ (forall x, In x visible ->
          x <> TIME
          /\ (In x (dimensions_above p src) \/ In x (Dict.keys (g_dimensions g)))).
Proof.
  intros Hwf Hrun Hg Hv Hname.
  destruct (notebook_ok src s Hwf Hrun) as (_ & Hav).
  destruct (averaged_get_at p [] src _ g Hav Hg) as (above & g' & Hg' & Havg & Hab).
  destruct (averaged_variable_get _ _ _ _ _ Havg Hv Hname) as (v' & Hv' & Havv).
  exists (above ++ Dict.keys (filter not_time (g_dimensions g))), g', v'.
  repeat split; try assumption.
  - apply (well_formed_get_variable g name); [|assumption].
    now apply (well_formed_get_at p src).
  - apply in_app_or in H. destruct H as [H|H].
    + destruct (Hab x H) as (_ & [[]|Hx]). exact Hx.
    + now apply keys_filter_not_time in H.
  - apply in_app_or in H. destruct H as [H|H].
    + destruct (Hab x H) as ([[]|Hx] & _). now left.
    + right. now apply keys_filter_not_time in H.
Qed.

(** ** Indexing and the mean along an axis *)










(** ** Claims *)

Lemma some_inj {A} (a b : A) : Some a = Some b -> a = b.
Proof. congruence. Qed.


Lemma length_remove_axis {A} axis (l : list A) :
  axis < List.length l -> S (List.length (remove_axis axis l)) = List.length l.
Proof.
  intros H. unfold remove_axis.
  rewrite length_app, length_firstn, length_skipn. lia.
Qed.


Lemma index_bound name dims axis :
  index name dims = Some axis -> axis < List.length dims.
Proof.
  revert axis. induction dims as [|d r IH]; intros axis; simpl; [discriminate|].
  destruct (String.eqb d name).
  - intros [= <-]. lia.
  - destruct (index name r) as [ax|]; [|discriminate].
    intros [= <-]. specialize (IH ax eq_refl). lia.
Qed.




Lemma averaged_topology g :
  forall above d, averaged above g = Some d -> topology_of d = topology_of g.
Proof.
  induction g as [a dm v c IH] using Group_induction.
  intros above d. rewrite averaged_eq. cbv zeta. simpl g_groups.
  destruct (all_some (map _ (filter not_time _))) as [vars|]; [|discriminate].
  generalize (above ++ Dict.keys (filter not_time (g_dimensions (mk_Group a dm v c))))
    as visible.
  intros visible.
  destruct (all_some (map _ c)) as [subgroups|] eqn:Es; [|discriminate].
  intros [= <-]. simpl. f_equal.
  revert subgroups Es. induction c as [|[n g] r IHr]; intros subgroups Es.
  - simpl in Es. now injection Es as <-.
  - inversion IH as [|? ? Hg Hr]; subst. simpl in Es.
    destruct (averaged visible g) as [g'|] eqn:Eg; simpl in Es; [|discriminate].
    destruct (all_some _) as [r'|] eqn:Er; [|discriminate].
    injection Es as <-. simpl. f_equal.
    + f_equal. now apply (Hg visible).
    + now apply IHr.
Qed.

(** C2.  The destination of a completed run has the group names and the
    nesting of the source. *)
Theorem C2_same_topology src s :
  well_formed src = true ->
  notebook src = (Ok tt, s) ->
  topology_of (dst_ds s) = topology_of src.
Proof.
  intros Hwf Hrun. destruct (notebook_ok src s Hwf Hrun) as (_ & Hav).
  now apply (averaged_topology src []).
Qed.

Lemma C2_same_topology_witness :
  topology_of (dst_ds (snd (notebook demo_tree))) = Topo [("observed", Topo [])].
Proof.
  rewrite (C2_same_topology demo_tree (snd (notebook demo_tree))).
  - reflexivity.
  - reflexivity.
  - vm_compute. reflexivity.
Defined.



Lemma allow_listed_not_time name :
  existsb (String.eqb name) ["lat"; "lon"] = true -> String.eqb name TIME = false.
Proof.
  simpl. rewrite orb_false_r, orb_true_iff, !String.eqb_eq.
  intros [-> | ->]; reflexivity.
Qed.

(** ** How a run ends *)

Lemma all_some_is_some {A B} (F : A -> option B) (l : list A) :
  is_some (all_some (map F l))
  = forallb (fun x => is_some (F x)) l.
Proof.
  induction l as [|x r IH]; simpl; [reflexivity|].
  destruct (F x); simpl; [|reflexivity].
  rewrite <- IH. now destruct (all_some (map F r)).
Qed.

Lemma forallb_same {A} (f f' : A -> bool) (l : list A) :
  (forall x, In x l -> f x = f' x) -> forallb f l = forallb f' l.
Proof.
  induction l as [|x r IH]; intros H; simpl; [reflexivity|].
  rewrite (H x) by now left. f_equal. apply IH. intros y Hy. apply H. now right.
Qed.

Lemma index_found name dims :
  existsb (String.eqb name) dims = true ->
  exists axis, index name dims = Some axis.
Proof.
  induction dims as [|d r IH]; cbn [existsb index]; [discriminate|].
  rewrite String.eqb_sym. destruct (String.eqb d name); cbn [orb]; [eauto|].
  intros H. destruct (IH H) as (axis & ->). cbn [option_map]. eauto.
Qed.

Lemma filter_time_absent dims :
  existsb (String.eqb TIME) dims = false ->
  filter (fun d => negb (String.eqb d TIME)) dims = dims.
Proof.
  induction dims as [|d r IH]; cbn [existsb filter]; [reflexivity|].
  rewrite orb_false_iff, String.eqb_sym. intros [-> Hr]. cbn [negb].
  now rewrite IH.
Qed.

(** A tuple without repeated names loses exactly one name with "time". *)
Lemma filter_time_once dims :
  distinct dims = true ->
  existsb (String.eqb TIME) dims = true ->
  S (List.length (filter (fun d => negb (String.eqb d TIME)) dims))
  = List.length dims.
Proof.
  induction dims as [|d r IH]; cbn [existsb filter distinct]; [discriminate|].
  rewrite andb_true_iff, negb_true_iff. intros [Hd Hr].
  rewrite (String.eqb_sym TIME d).
  destruct (String.eqb_spec d TIME) as [->|Hn]; cbn [negb orb].
  - intros _. now rewrite (filter_time_absent r Hd).
  - intros H. cbn [List.length]. now rewrite (IH Hr H).
Qed.

(** Under the invariants of a file, a variable is written exactly when
    the dimensions asked for are visible. *)
Lemma averaged_variable_is_some visible name v :
  well_formed_variable v = true ->
  is_some (averaged_variable visible name v)
  = forallb (fun d => existsb (String.eqb d) visible)
            (requested_dimensions name v).
Proof.
  unfold well_formed_variable. rewrite !andb_true_iff.
  intros (((_ & Hdd) & Hr) & _). pose proof Hr as Hrank.
  apply Nat.eqb_eq in Hrank.
  unfold averaged_variable, requested_dimensions, stored.
  destruct (existsb (String.eqb name) ["lat"; "lon"]).
  { rewrite Hr, andb_true_r. now destruct (forallb _ _). }
  destruct (existsb (String.eqb TIME) (v_dimensions v)) eqn:Et.
  2: { rewrite (filter_time_absent _ Et), Hr, andb_true_r.
       now destruct (forallb _ _). }
  destruct (index_found _ _ Et) as (axis & Hi). rewrite Hi.
  pose proof (index_bound _ _ _ Hi) as Hb.
  assert ((axis <? List.length (shape (v_data v))) = true) as ->
    by (apply Nat.ltb_lt; lia).
  change (shape (mean_axis (v_data v) axis))
    with (remove_axis axis (shape (v_data v))).
  assert ((List.length (remove_axis axis (shape (v_data v)))
           =? List.length (filter (fun d => negb (String.eqb d TIME))
                                  (v_dimensions v))) = true) as ->.
  { apply Nat.eqb_eq.
    pose proof (length_remove_axis axis (shape (v_data v))) as H1.
    pose proof (filter_time_once _ Hdd Et) as H2. lia. }
  rewrite andb_true_r. now destruct (forallb _ _).
Qed.

Lemma averaged_is_some g :
  well_formed g = true ->
  forall above,
    is_some (averaged above g) = copyable above g.
Proof.
  induction g as [a dm v c IH] using Group_induction.
  intros Hwf above. rewrite averaged_eq. cbv zeta.
  simpl in Hwf. rewrite !andb_true_iff in Hwf.
  destruct Hwf as (((((_ & _) & _) & _) & Hvs) & Hcs).
  simpl copyable. cbn [g_dimensions g_variables g_groups].
  set (visible := above ++ Dict.keys (filter not_time dm)).
  assert (forallb (fun nv => forallb (fun d => existsb (String.eqb d) visible)
                               (requested_dimensions (fst nv) (snd nv)))
                  (filter not_time v)
          = is_some (all_some (map (fun nv => option_map (pair (fst nv))
                                (averaged_variable visible (fst nv) (snd nv)))
                             (filter not_time v)))) as ->.
  { rewrite all_some_is_some. apply forallb_same. intros [n x] Hin. simpl.
    apply filter_In in Hin. destruct Hin as [Hin _].
    rewrite forallb_forall in Hvs.
    rewrite <- (averaged_variable_is_some visible n x (Hvs _ Hin)).
    now destruct (averaged_variable visible n x). }
  assert (forallb (fun c0 => copyable visible (snd c0)) c
          = is_some (all_some (map (fun c0 => option_map (pair (fst c0))
                                (averaged visible (snd c0))) c))) as ->.
  { rewrite all_some_is_some. apply forallb_same. intros [n x] Hin. simpl.
    rewrite Forall_forall in IH. rewrite forallb_forall in Hcs.
    pose proof (IH (n, x) Hin (Hcs _ Hin) visible) as Hx. simpl in Hx.
    rewrite <- Hx. now destruct (averaged visible x). }
  destruct (all_some (map _ (filter not_time v)));
    destruct (all_some (map _ c)); reflexivity.
Qed.

(** Every branch of [copy_vars] starts with [createVariable] on the
    dimensions asked for; when one of them is not visible, that is where
    the variable fails, before anything of it is written. *)
Lemma copy_var_g_lookup_error above name v d :
  String.eqb name TIME = false ->
  forallb (fun x => existsb (String.eqb x)
                      (above ++ Dict.keys (g_dimensions d)))
          (requested_dimensions name v) = false ->
  exists x,
    copy_var_g above name v d = (Raise (DimensionNotFound x), d)
    /\ asked_and_missing (above ++ Dict.keys (g_dimensions d)) x name v = true.
Proof.
  intros Hname Hvis. unfold copy_var_g. rewrite Hname.
  assert (forall (k : unit -> M Group unit),
            exists x,
              bind (createVariable_g above name (v_datatype v)
                      (requested_dimensions name v)) k d
              = (Raise (DimensionNotFound x), d)
              /\ asked_and_missing (above ++ Dict.keys (g_dimensions d))
                                   x name v = true) as Hcreate.
  { intros k. unfold bind, createVariable_g, asked_and_missing.
    destruct (find _ (requested_dimensions name v)) as [bad|] eqn:Ef.
    - exists bad. split; [reflexivity|].
      apply find_some in Ef. destruct Ef as [Hin Hbad].
      apply andb_true_iff. split; [now apply existsb_eqb_In|].
      rewrite existsb_app. fold (Dict.mem bad (g_dimensions d)).
      now rewrite orb_comm.
    - apply visible_spec in Ef. congruence. }
  unfold requested_dimensions in Hcreate at 1.
  destruct (existsb (String.eqb name) ["lat"; "lon"]); [apply Hcreate|].
  destruct (existsb (String.eqb TIME) (v_dimensions v)) eqn:Et;
    [apply Hcreate|].
  rewrite (filter_time_absent _ Et) in Hcreate. apply Hcreate.
Qed.

Lemma copy_vars_loop_lookup_error above l : forall d,
  distinct (Dict.keys l) = true ->
  (forall n, In n (Dict.keys l) -> Dict.mem n (g_variables d) = false) ->
  forallb (fun nv => well_formed_variable (snd nv)) l = true ->
  all_some
    (map (fun nv => option_map (pair (fst nv))
                      (averaged_variable (above ++ Dict.keys (g_dimensions d))
                                         (fst nv) (snd nv)))
         (filter not_time l)) = None ->
  exists x d',
    for_each (fun '(n, v) => copy_var_g above n v) l d
    = (Raise (DimensionNotFound x), d')
    /\ existsb (fun nv => asked_and_missing
                            (above ++ Dict.keys (g_dimensions d))
                            x (fst nv) (snd nv))
               (filter not_time l) = true.
Proof.
  induction l as [|[n v] r IH]; intros d Hd Hn Hwf Hnone; [discriminate|].
  simpl in Hd. rewrite andb_true_iff, negb_true_iff in Hd.
  destruct Hd as (Hnr & Hd).
  simpl in Hwf. rewrite andb_true_iff in Hwf. destruct Hwf as (Hwfv & Hwfr).
  rewrite for_each_cons. cbn [filter] in *.
  change (not_time (n, v)) with (negb (String.eqb n TIME)) in *.
  destruct (String.eqb n TIME) eqn:Et; cbn [negb] in *.
  - unfold copy_var_g. rewrite Et. unfold continue, ret.
    apply IH; try assumption. intros k Hk. apply Hn. now right.
  - cbn [map fst snd all_some existsb] in *.
    pose proof (copy_var_g_run above n v d Et (Hn n (or_introl eq_refl)))
      as Hstep.
    pose proof (averaged_variable_is_some
                  (above ++ Dict.keys (g_dimensions d)) n v Hwfv) as Hsome.
    destruct (averaged_variable _ n v) as [v'|]; cbn [option_map] in Hnone.
    + rewrite Hstep.
      destruct (IH (with_variables d (g_variables d ++ [(n, v')])))
        as (x & d' & Hrun & Hx); try assumption.
      * intros k Hk. simpl. rewrite mem_app, (Hn k) by now right.
        rewrite mem_cons. change (Dict.mem k (@nil (string * NcVariable)))
          with false.
        rewrite !orb_false_r. apply String.eqb_neq. intros ->.
        apply existsb_eqb_In in Hk. congruence.
      * simpl g_dimensions.
        destruct (all_some _) as [vars|]; [discriminate|reflexivity].
      * exists x, d'. split; [assumption|].
        simpl g_dimensions in Hx. rewrite Hx. apply orb_true_r.
    + destruct (copy_var_g_lookup_error above n v d Et)
        as (x & -> & Hx); [now symmetry|].
      exists x, d. split; [reflexivity|]. now rewrite Hx.
Qed.

Lemma subgroups_loop_lookup_error above l :
  Forall (fun c => forall above', run_as_averaged above' (snd c)) l ->
  Forall (fun c => forall above',
            averaged above' (snd c) = None ->
            exists x d',
              recursive_copy_g above' (snd c) empty_group
              = (Raise (DimensionNotFound x), d')
              /\ lookup_fails x above' (snd c) = true) l ->
  forall d,
  distinct (Dict.keys l) = true ->
  (forall n, In n (Dict.keys l) -> Dict.mem n (g_groups d) = false) ->
  all_some
    (map (fun c => option_map (pair (fst c))
                     (averaged (above ++ Dict.keys (g_dimensions d)) (snd c)))
         l) = None ->
  exists x d',
    for_each (fun c =>
      createGroup_g (fst c) ;;
      in_child (fst c) (fun g =>
        recursive_copy_g (above ++ Dict.keys (g_dimensions g)) (snd c))) l d
    = (Raise (DimensionNotFound x), d')
    /\ existsb (fun c => lookup_fails x (above ++ Dict.keys (g_dimensions d))
                                      (snd c)) l = true.
Proof.
  induction l as [|[n c] r IH]; intros HF HE d Hd Hn Hnone; [discriminate|].
  simpl in Hd. rewrite andb_true_iff, negb_true_iff in Hd.
  destruct Hd as (Hnr & Hd).
  inversion HF as [|? ? Hc HFr]; subst. inversion HE as [|? ? He HEr]; subst.
  specialize (Hc (above ++ Dict.keys (g_dimensions d))).
  specialize (He (above ++ Dict.keys (g_dimensions d))).
  cbn [snd] in Hc, He. unfold run_as_averaged in Hc.
  assert (Hfresh : Dict.mem n (g_groups d) = false) by (apply Hn; now left).
  rewrite for_each_cons. cbn [fst snd map all_some existsb] in *.
  rewrite (subgroup_step above n c d Hfresh).
  destruct (averaged _ c) as [c'|]; cbn [option_map] in Hnone.
  - rewrite Hc. cbn [fst snd].
    destruct (IH HFr HEr (with_groups d (g_groups d ++ [(n, c')])))
      as (x & d' & Hrun & Hx); try assumption.
    + intros k Hk. simpl. rewrite mem_app, (Hn k) by now right.
      rewrite mem_cons. change (Dict.mem k (@nil (string * Group))) with false.
      rewrite !orb_false_r. apply String.eqb_neq. intros ->.
      apply existsb_eqb_In in Hk. congruence.
    + simpl g_dimensions.
      destruct (all_some _) as [subs|]; [discriminate|reflexivity].
    + exists x, d'. split; [assumption|].
      simpl g_dimensions in Hx. rewrite Hx. apply orb_true_r.
  - destruct (He eq_refl) as (x & d' & -> & Hx). cbn [fst snd].
    exists x. eexists. split; [reflexivity|]. now rewrite Hx.
Qed.

Lemma lookup_fails_eq x above g :
  lookup_fails x above g =
  existsb (fun nv => asked_and_missing
                       (above ++ Dict.keys (filter not_time (g_dimensions g)))
                       x (fst nv) (snd nv))
          (filter not_time (g_variables g))
  || existsb (fun c => lookup_fails x
                         (above ++ Dict.keys (filter not_time (g_dimensions g)))
                         (snd c)) (g_groups g).
Proof. now destruct g. Qed.

Lemma recursive_copy_g_lookup_error g :
  well_formed g = true ->
  forall above,
    averaged above g = None ->
    exists x d',
      recursive_copy_g above g empty_group = (Raise (DimensionNotFound x), d')
      /\ lookup_fails x above g = true.
Proof.
  induction g as [a dm v c IH] using Group_induction.
  intros Hwf above. pose proof Hwf as Hwf'.
  simpl in Hwf. rewrite !andb_true_iff in Hwf.
  destruct Hwf as (((((Ha & Hdm) & Hv) & Hc) & Hvs) & Hcs).
  assert (HF : Forall (fun c0 => forall above', run_as_averaged above' (snd c0)) c).
  { rewrite Forall_forall. intros x Hx above'. apply recursive_copy_g_run.
    rewrite forallb_forall in Hcs. now apply Hcs. }
  assert (HE : Forall (fun c0 => forall above',
                         averaged above' (snd c0) = None ->
                         exists x d',
                           recursive_copy_g above' (snd c0) empty_group
                           = (Raise (DimensionNotFound x), d')
                           /\ lookup_fails x above' (snd c0) = true) c).
  { rewrite Forall_forall in *. intros x Hx above'. apply IH; [assumption|].
    rewrite forallb_forall in Hcs. now apply Hcs. }
  clear IH. rewrite averaged_eq. cbv zeta.
  cbn [g_dimensions g_variables g_groups g_attrs].
  change (recursive_copy_g above (mk_Group a dm v c)) with
    (setncatts_g (Dict.comprehension (Dict.keys a) a) ;;
     copy_dims_g (mk_Group a dm v c) ;;
     copy_vars_g above (mk_Group a dm v c) ;;
     for_each (fun c0 =>
       createGroup_g (fst c0) ;;
       in_child (fst c0) (fun g =>
         recursive_copy_g (above ++ Dict.keys (g_dimensions g)) (snd c0))) c).
  set (d2 := mk_Group (copied_attrs a) (filter not_time dm) [] []).
  assert (Hdims : copy_dims_g (mk_Group a dm v c)
                    (mk_Group (copied_attrs a) [] [] []) = (Ok tt, d2)).
  { rewrite copy_dims_g_run. simpl g_dimensions.
    now rewrite (copied_dimensions_fresh dm []). }
  rewrite (bind_ok _ _ _ tt (mk_Group (copied_attrs a) [] [] []))
    by reflexivity.
  rewrite (bind_ok _ _ _ tt d2 Hdims).
  pose proof (copy_vars_loop above v d2 Hv (fun n _ => eq_refl)) as Hvars.
  pose proof (copy_vars_loop_lookup_error above v d2 Hv (fun n _ => eq_refl) Hvs)
    as Hverr.
  simpl g_dimensions in Hvars, Hverr. simpl g_variables in Hvars.
  destruct (all_some (map _ (filter not_time v))) as [vars|].
  2: { intros _. destruct (Hverr eq_refl) as (x & d' & Hx & Hmiss).
       unfold copy_vars_g. simpl g_variables.
       rewrite (bind_raise _ _ _ _ d' Hx). exists x, d'.
       split; [reflexivity|]. rewrite lookup_fails_eq.
       cbn [g_dimensions g_variables g_groups]. now rewrite Hmiss. }
  rewrite (bind_ok _ _ _ tt _ Hvars).
  pose proof (subgroups_loop_lookup_error above c HF HE (with_variables d2 vars)
                Hc (fun n _ => eq_refl)) as Hsubs.
  simpl g_dimensions in Hsubs.
  destruct (all_some (map _ c)) as [subgroups|]; [discriminate|].
  intros _. destruct (Hsubs eq_refl) as (x & d' & Hx & Hmiss).
  exists x, d'. split; [exact Hx|]. rewrite lookup_fails_eq.
  cbn [g_dimensions g_variables g_groups]. rewrite Hmiss. apply orb_true_r.
Qed.

(** *** What is written up to the failure *)

Lemma with_variables_nil d : with_variables d (g_variables d ++ []) = d.
Proof. rewrite app_nil_r. now destruct d. Qed.

Lemma with_groups_nil d : with_groups d (g_groups d ++ []) = d.
Proof. rewrite app_nil_r. now destruct d. Qed.

Lemma fresh_after {V} (l : list (string * V)) n (v : V) r :
  existsb (String.eqb n) (Dict.keys r) = false ->
  (forall k, In k (Dict.keys ((n, v) :: r)) -> Dict.mem k l = false) ->
  forall k, In k (Dict.keys r) -> Dict.mem k (l ++ [(n, v)]) = false.
Proof.
  intros Hnr Hn k Hk. rewrite mem_app, (Hn k) by now right.
  rewrite mem_cons. change (Dict.mem k (@nil (string * V))) with false.
  rewrite !orb_false_r. apply String.eqb_neq. intros ->.
  apply existsb_eqb_In in Hk. congruence.
Qed.

Lemma copy_vars_loop_partial above l : forall d,
  distinct (Dict.keys l) = true ->
  (forall n, In n (Dict.keys l) -> Dict.mem n (g_variables d) = false) ->
  forallb (fun nv => well_formed_variable (snd nv)) l = true ->
  forall vars done,
    while_some
      (map (fun nv => option_map (pair (fst nv))
                        (averaged_variable (above ++ Dict.keys (g_dimensions d))
                                           (fst nv) (snd nv)))
           (filter not_time l)) = (vars, done) ->
    snd (for_each (fun '(n, v) => copy_var_g above n v) l d)
    = with_variables d (g_variables d ++ vars)
    /\ if done
       then fst (for_each (fun '(n, v) => copy_var_g above n v) l d) = Ok tt
       else exists x,
              fst (for_each (fun '(n, v) => copy_var_g above n v) l d)
              = Raise (DimensionNotFound x).
Proof.
  induction l as [|[n v] r IH]; intros d Hd Hn Hwf vars done Hw.
  - injection Hw as <- <-. simpl. now rewrite with_variables_nil.
  - simpl in Hd. rewrite andb_true_iff, negb_true_iff in Hd.
    destruct Hd as (Hnr & Hd).
    simpl in Hwf. rewrite andb_true_iff in Hwf. destruct Hwf as (Hwfv & Hwfr).
    rewrite for_each_cons. cbn [filter] in Hw.
    change (not_time (n, v)) with (negb (String.eqb n TIME)) in Hw.
    destruct (String.eqb n TIME) eqn:Et; cbn [negb] in Hw.
    + unfold copy_var_g. rewrite Et. unfold continue, ret.
      apply IH; try assumption. intros k Hk. apply Hn. now right.
    + cbn [map fst snd while_some] in Hw.
      pose proof (copy_var_g_run above n v d Et (Hn n (or_introl eq_refl)))
        as Hstep.
      pose proof (averaged_variable_is_some
                    (above ++ Dict.keys (g_dimensions d)) n v Hwfv) as Hsome.
      destruct (averaged_variable _ n v) as [v'|]; cbn [option_map] in Hw.
      * rewrite Hstep.
        destruct (while_some _) as [vars' done'] eqn:Ew in Hw.
        injection Hw as <- <-.
        destruct (IH (with_variables d (g_variables d ++ [(n, v')])) Hd
                     (fresh_after _ n v' r Hnr
                        (fun k Hk => Hn k Hk)) Hwfr vars' done' Ew)
          as (Hstate & Hres).
        split; [|exact Hres].
        rewrite Hstate. simpl. now rewrite <- app_assoc.
      * injection Hw as <- <-.
        destruct (copy_var_g_lookup_error above n v d Et) as (x & -> & _);
          [now symmetry|].
        split; [now rewrite with_variables_nil | now exists x].
Qed.

Lemma subgroups_loop_partial above l :
  Forall (fun c => forall above', run_as_partial above' (snd c)) l ->
  forall d,
  distinct (Dict.keys l) = true ->
  (forall n, In n (Dict.keys l) -> Dict.mem n (g_groups d) = false) ->
  forall subgroups done,
    until_stopped
      (map (fun c =>
              let (c', ok) :=
                partial_copy (above ++ Dict.keys (g_dimensions d)) (snd c) in
              ((fst c, c'), ok)) l) = (subgroups, done) ->
    snd (for_each (fun c =>
           createGroup_g (fst c) ;;
           in_child (fst c) (fun g =>
             recursive_copy_g (above ++ Dict.keys (g_dimensions g)) (snd c)))
           l d)
    = with_groups d (g_groups d ++ subgroups)
    /\ if done
       then fst (for_each (fun c =>
              createGroup_g (fst c) ;;
              in_child (fst c) (fun g =>
                recursive_copy_g (above ++ Dict.keys (g_dimensions g)) (snd c)))
              l d) = Ok tt
       else exists x,
              fst (for_each (fun c =>
                createGroup_g (fst c) ;;
                in_child (fst c) (fun g =>
                  recursive_copy_g (above ++ Dict.keys (g_dimensions g))
                                   (snd c)))
                l d) = Raise (DimensionNotFound x).
Proof.
  induction l as [|[n c] r IH]; intros HF d Hd Hn subgroups done Hw.
  - injection Hw as <- <-. simpl. now rewrite with_groups_nil.
  - simpl in Hd. rewrite andb_true_iff, negb_true_iff in Hd.
    destruct Hd as (Hnr & Hd).
    inversion HF as [|? ? Hc HFr]; subst.
    specialize (Hc (above ++ Dict.keys (g_dimensions d))). cbn [snd] in Hc.
    destruct Hc as (Hstate & Hres).
    assert (Hfresh : Dict.mem n (g_groups d) = false) by (apply Hn; now left).
    rewrite for_each_cons. cbn [fst snd map until_stopped] in *.
    rewrite (subgroup_step above n c d Hfresh). rewrite Hstate.
    destruct (partial_copy _ c) as [c' ok]. cbn [fst snd] in *.
    destruct ok.
    + rewrite Hres.
      destruct (until_stopped _) as [subs' done'] eqn:Ew in Hw.
      injection Hw as <- <-.
      destruct (IH HFr (with_groups d (g_groups d ++ [(n, c')])) Hd
                   (fresh_after _ n c' r Hnr (fun k Hk => Hn k Hk))
                   subs' done' Ew) as (Hst & Hr).
      split; [|exact Hr]. rewrite Hst. simpl. now rewrite <- app_assoc.
    + injection Hw as <- <-. destruct Hres as (x & ->).
      split; [reflexivity | now exists x].
Qed.

Lemma partial_copy_eq above g :
  partial_copy above g =
  let dims := filter not_time (g_dimensions g) in
  let visible := above ++ Dict.keys dims in
  let (vars, vars_done) :=
    while_some (map (fun nv => option_map (pair (fst nv))
                                 (averaged_variable visible (fst nv) (snd nv)))
                    (filter not_time (g_variables g))) in
  let (subgroups, done) :=
    if vars_done then
      until_stopped (map (fun c => let (c', ok) := partial_copy visible (snd c) in
                                   ((fst c, c'), ok))
                         (g_groups g))
    else ([], false) in
  (mk_Group (copied_attrs (g_attrs g)) dims vars subgroups, done).
Proof. now destruct g. Qed.

(** The copy of a well-formed group into a new group stops, if it
    stops, at a dimension lookup, and leaves what [partial_copy] says. *)
Lemma recursive_copy_g_partial g :
  well_formed g = true -> forall above, run_as_partial above g.
Proof.
  induction g as [a dm v c IH] using Group_induction.
  intros Hwf above. unfold run_as_partial.
  simpl in Hwf. rewrite !andb_true_iff in Hwf.
  destruct Hwf as (((((Ha & Hdm) & Hv) & Hc) & Hvs) & Hcs).
  assert (HF : Forall (fun c0 => forall above', run_as_partial above' (snd c0)) c).
  { rewrite Forall_forall in *. intros x Hx above'. apply IH; [assumption|].
    rewrite forallb_forall in Hcs. now apply Hcs. }
  clear IH. rewrite partial_copy_eq. cbv zeta.
  cbn [g_dimensions g_variables g_groups g_attrs].
  change (recursive_copy_g above (mk_Group a dm v c)) with
    (setncatts_g (Dict.comprehension (Dict.keys a) a) ;;
     copy_dims_g (mk_Group a dm v c) ;;
     copy_vars_g above (mk_Group a dm v c) ;;
     for_each (fun c0 =>
       createGroup_g (fst c0) ;;
       in_child (fst c0) (fun g =>
         recursive_copy_g (above ++ Dict.keys (g_dimensions g)) (snd c0))) c).
  set (d2 := mk_Group (copied_attrs a) (filter not_time dm) [] []).
  assert (Hdims : copy_dims_g (mk_Group a dm v c)
                    (mk_Group (copied_attrs a) [] [] []) = (Ok tt, d2)).
  { rewrite copy_dims_g_run. simpl g_dimensions.
    now rewrite (copied_dimensions_fresh dm []). }
  rewrite (bind_ok _ _ _ tt (mk_Group (copied_attrs a) [] [] []))
    by reflexivity.
  rewrite (bind_ok _ _ _ tt d2 Hdims).
  destruct (while_some _) as [vars vars_done] eqn:Ev.
  destruct (copy_vars_loop_partial above v d2 Hv (fun n _ => eq_refl) Hvs
              vars vars_done Ev) as (Hvstate & Hvres).
  unfold copy_vars_g. cbn [g_variables].
  destruct (for_each (fun '(n, x) => copy_var_g above n x) v d2)
    as [rv dv] eqn:Erun.
  cbn [fst snd] in Hvstate, Hvres. subst dv.
  destruct vars_done.
  - subst rv. rewrite (bind_ok _ _ _ tt _ Erun).
    destruct (until_stopped _) as [subgroups done] eqn:Es.
    destruct (subgroups_loop_partial above c HF
                (with_variables d2 (g_variables d2 ++ vars)) Hc
                (fun n _ => eq_refl) subgroups done Es) as (Hsstate & Hsres).
    split; [exact Hsstate | exact Hsres].
  - destruct Hvres as (x & ->). rewrite (bind_raise _ _ _ _ _ Erun).
    split; [reflexivity | now exists x].
Qed.

(** The run of the last cell, whether it completes or not. *)
Lemma notebook_partial src :
  well_formed src = true ->
  snd (notebook src) = mk_store src (fst (partial_copy [] src))
  /\ if snd (partial_copy [] src)
     then fst (notebook src) = Ok tt
     else exists x, fst (notebook src) = Raise (DimensionNotFound x).
Proof.
  intros Hwf. rewrite (notebook_run src Hwf).
  destruct (recursive_copy_g_partial src Hwf []) as (Hstate & Hres).
  cbn [fst snd]. now rewrite Hstate.
Qed.

(** C5 (a defect of the code).  A variable of a well-formed source that
    is named "lat" or "lon" and whose dimension tuple contains "time" is
    not copied as it is: [copy_vars] asks [createVariable] for the whole
    tuple, [copy_dims] has left "time" out of the destination at every
    level, and the run ends with an exception instead of a copy. *)
Theorem C5_allow_listed_over_time_raises src p g name v :
  well_formed src = true ->
  get_at p src = Some g ->
  Dict.get name (g_variables g) = Some v ->
  existsb (String.eqb name) ["lat"; "lon"] = true ->
  existsb (String.eqb TIME) (v_dimensions v) = true ->
  exists e, fst (notebook src) = Raise e.
Proof.
  intros Hwf Hg Hv Hallow Htime.
  destruct (notebook_partial src Hwf) as (_ & Hres).
  destruct (snd (partial_copy [] src));
    [exfalso | destruct Hres as (x & ->); eauto].
  pose proof (allow_listed_not_time name Hallow) as Hname.
  destruct (notebook src) as [r s] eqn:Hrun. simpl in Hres. subst r.
  destruct (notebook_variable _ _ _ _ _ _ Hwf Hrun Hg Hv Hname)
    as (visible & g' & v' & Hg' & Hv' & Hav & Hwfv & Hvis).
  destruct (averaged_variable_as_is visible name v v' Hwfv (or_introl Hallow) Hav)
    as (_ & Hall).
  apply existsb_eqb_In in Htime.
  rewrite forallb_forall in Hall. specialize (Hall TIME Htime).
  apply existsb_eqb_In in Hall. now destruct (Hvis TIME Hall).
Qed.

(** The failing input is a tree as a file holds it: every dimension a
    variable uses is declared.  The run on it names "time" and leaves
    no variable "lat". *)
Lemma C5_allow_listed_over_time_raises_witness :
  well_formed moving_tree = true
  /\ closed [] moving_tree = true
  /\ (exists e, fst (notebook moving_tree) = Raise e)
  /\ fst (notebook moving_tree) = Raise (DimensionNotFound "time")
  /\ Dict.get "lat" (g_variables (dst_ds (snd (notebook moving_tree)))) = None.
Proof.
  split; [reflexivity|]. split; [reflexivity|].
  split; [|split; vm_compute; reflexivity].
  apply (C5_allow_listed_over_time_raises moving_tree [] moving_tree "lat"
           moving_latitude); reflexivity.
Defined.

Lemma get_app_mem {V} n (d e : list (string * V)) :
  Dict.mem n d = true -> Dict.get n (d ++ e) = Dict.get n d.
Proof.
  induction d as [|[k v] r IH]; simpl; [discriminate|].
  rewrite mem_cons. destruct (String.eqb n k); simpl; [reflexivity|exact IH].
Qed.

Lemma copied_dimensions_cons acc kv l :
  copied_dimensions acc (kv :: l) =
  copied_dimensions
    (if String.eqb (fst kv) TIME then acc
     else if Dict.mem (fst kv) acc then acc else acc ++ [kv]) l.
Proof. reflexivity. Qed.

Lemma copied_dimensions_keeps n l : forall acc,
  Dict.mem n acc = true ->
  Dict.get n (copied_dimensions acc l) = Dict.get n acc.
Proof.
  induction l as [|[k d] r IH]; intros acc Hm; [reflexivity|].
  rewrite copied_dimensions_cons. simpl fst.
  destruct (String.eqb k TIME); [now apply IH|].
  destruct (Dict.mem k acc); [now apply IH|].
  rewrite IH by (rewrite mem_app, Hm; reflexivity).
  now apply get_app_mem.
Qed.

Lemma copied_dimensions_get n dim l : forall acc,
  distinct (Dict.keys l) = true ->
  In (n, dim) l ->
  n <> TIME ->
  Dict.get n (copied_dimensions acc l)
  = if Dict.mem n (acc) then Dict.get n acc else Some dim.
Proof.
  induction l as [|[k d] r IH]; intros acc Hd Hin Hn; [destruct Hin|].
  simpl in Hd. rewrite andb_true_iff, negb_true_iff in Hd.
  destruct Hd as (Hk & Hd).
  rewrite copied_dimensions_cons. simpl fst.
  destruct Hin as [[= -> ->]|Hin].
  - apply String.eqb_neq in Hn. rewrite Hn.
    destruct (Dict.mem n acc) eqn:Em.
    + now apply copied_dimensions_keeps.
    + rewrite copied_dimensions_keeps.
      * now apply get_last.
      * rewrite mem_app, mem_cons, String.eqb_refl. now rewrite orb_true_r.
  - assert (n <> k) as Hnk.
    { intros ->. apply (in_map fst) in Hin. apply existsb_eqb_In in Hin.
      unfold Dict.keys in Hk. simpl in Hin. congruence. }
    destruct (String.eqb k TIME); [now apply IH|].
    destruct (Dict.mem k acc); [now apply IH|].
    rewrite (IH (acc ++ [(k, d)]) Hd Hin Hn).
    rewrite mem_app, mem_cons. unfold Dict.mem at 2. simpl.
    apply String.eqb_neq in Hnk. rewrite Hnk, !orb_false_r.
    destruct (Dict.mem n acc) eqn:Em; [now apply get_app_mem|reflexivity].
Qed.

Lemma copied_dimensions_time l : forall acc,
  Dict.mem TIME (copied_dimensions acc l) = Dict.mem TIME acc.
Proof.
  induction l as [|[k d] r IH]; intros acc; [reflexivity|].
  rewrite copied_dimensions_cons. simpl fst.
  destruct (String.eqb k TIME) eqn:Ek; [now apply IH|].
  destruct (Dict.mem k acc); [now apply IH|].
  rewrite IH, mem_app, mem_cons, String.eqb_sym, Ek.
  change (Dict.mem TIME (@nil (string * Dimension))) with false.
  now rewrite !orb_false_r.
Qed.

(** C8.  [copy_dims] never raises.  It leaves in the destination group
    every dimension of the source group that is not named "time": with
    the source's size or unlimited marker if the destination had no
    dimension of that name, and with whatever the destination had
    otherwise (the dimension is skipped).  It creates no "time"
    dimension and touches nothing else of the group. *)
Theorem C8_copy_dims src_group dst_group s gs gd :
  h_file src_group <> h_file dst_group ->
  get_group src_group s = Some gs ->
  get_group dst_group s = Some gd ->
  distinct (Dict.keys (g_dimensions gs)) = true ->
  exists gd',
    copy_dims src_group dst_group s = (Ok tt, set_group dst_group gd' s)
    /\ g_attrs gd' = g_attrs gd
    /\ g_variables gd' = g_variables gd
    /\ g_groups gd' = g_groups gd
    /\ (forall n dim,
          In (n, dim) (g_dimensions gs) -> n <> TIME ->
          Dict.get n (g_dimensions gd')
          = if Dict.mem n (g_dimensions gd) then Dict.get n (g_dimensions gd)
            else Some dim)
    /\ Dict.mem TIME (g_dimensions gd') = Dict.mem TIME (g_dimensions gd).
Proof.
  intros Hfiles Hsrc Hdst Hdist.
  exists (with_dimensions gd
            (copied_dimensions (g_dimensions gd) (g_dimensions gs))).
  split.
  - rewrite (simulates_copy_dims src_group dst_group gs
               (parent_dimensions dst_group s) Hfiles s).
    + unfold at_handle. rewrite Hdst. now rewrite copy_dims_g_run.
    + repeat split; [assumption | congruence].
  - repeat split.
    + intros n dim Hin Hn. simpl. now apply copied_dimensions_get.
    + simpl. apply copied_dimensions_time.
Qed.

Lemma C8_copy_dims_witness :
  exists gd',
    copy_dims (root SrcFile) (root DstFile)
              (mk_store demo_tree (mk_Group [] [("lat", Unlimited)] [] []))
    = (Ok tt, mk_store demo_tree gd')
    /\ Dict.get "lat" (g_dimensions gd') = Some Unlimited
    /\ Dict.get "lon" (g_dimensions gd') = Some (Fixed 5)
    /\ Dict.mem TIME (g_dimensions gd') = false.
Proof.
  destruct (C8_copy_dims (root SrcFile) (root DstFile)
              (mk_store demo_tree (mk_Group [] [("lat", Unlimited)] [] []))
              demo_tree (mk_Group [] [("lat", Unlimited)] [] []))
    as (gd' & Hrun & _ & _ & _ & Hget & Htime);
    [discriminate | reflexivity | reflexivity | reflexivity |].
  exists gd'. split; [exact Hrun|]. split; [|split].
  - apply (Hget "lat" (Fixed 5)); [right; now left | discriminate].
  - apply (Hget "lon" (Fixed 5)); [right; right; now left | discriminate].
  - exact Htime.
Defined.

(** ** The source dataset is only read *)

Lemma preserves_source_ret {A} (a : A) : preserves_source (ret a).
Proof. intros s. reflexivity. Qed.

Lemma preserves_source_raise {A} e : preserves_source (@raise store A e).
Proof. intros s. reflexivity. Qed.

Lemma preserves_source_bind {A B} (m : M store A) (k : A -> M store B) :
  preserves_source m -> (forall a, preserves_source (k a)) ->
  preserves_source (bind m k).
Proof.
  intros Hm Hk s. unfold bind. specialize (Hm s).
  destruct (m s) as [[a|e] s1]; simpl in *; [|assumption].
  now rewrite Hk.
Qed.

Lemma preserves_source_for_each {B} (body : B -> M store unit) l :
  (forall x, preserves_source (body x)) -> preserves_source (for_each body l).
Proof.
  intros H. induction l as [|x r IH]; simpl.
  - apply preserves_source_ret.
  - apply preserves_source_bind; [apply H | intros _; exact IH].
Qed.

(** Whatever is done through a handle into the destination file. *)
Lemma preserves_source_at_handle {A} h (m : M Group A) :
  h_file h = DstFile -> preserves_source (at_handle h m).
Proof.
  intros Hf s. unfold at_handle.
  destruct (get_group h s) as [g|]; [|reflexivity].
  destruct (m g) as [r g']. simpl. now apply src_ds_set_group.
Qed.

(** Reading through any handle. *)
Lemma preserves_source_read {A} h (f : Group -> A) :
  preserves_source (at_handle h (gets f)).
Proof.
  intros s. unfold at_handle, gets.
  destruct (get_group h s) as [g|] eqn:E; [|reflexivity].
  simpl. now rewrite (set_get_group _ _ _ E).
Qed.

Lemma preserves_source_createVariable {B} grp name dt dims
    (k : var_handle -> M store B) :
  h_file grp = DstFile ->
  preserves_source (k (mk_var_handle grp name)) ->
  preserves_source (bind (createVariable grp name dt dims) k).
Proof.
  intros Hf Hk s. unfold bind at 1, createVariable, bind, ret.
  pose proof (preserves_source_at_handle grp
                (createVariable_g (parent_dimensions grp s) name dt dims) Hf s)
    as H.
  destruct (at_handle grp _ s) as [[[]|e] s1]; simpl in *; [|assumption].
  now rewrite Hk.
Qed.

Lemma preserves_source_createGroup {B} grp name (k : handle -> M store B) :
  h_file grp = DstFile ->
  preserves_source (k (child grp name)) ->
  preserves_source (bind (createGroup grp name) k).
Proof.
  intros Hf Hk s. unfold bind at 1, createGroup, bind, ret.
  pose proof (preserves_source_at_handle grp (createGroup_g name) Hf s) as H.
  destruct (at_handle grp _ s) as [[[]|e] s1]; simpl in *; [|assumption].
  now rewrite Hk.
Qed.

Lemma preserves_source_store_variable grp name dt dims attrs data :
  h_file grp = DstFile ->
  preserves_source
    (new_var <- createVariable grp name dt dims ;;
     var_setncatts new_var attrs ;;
     var_assign new_var data).
Proof.
  intros Hf. apply preserves_source_createVariable; [assumption|].
  apply preserves_source_bind.
  - now apply preserves_source_at_handle.
  - intros _. now apply preserves_source_at_handle.
Qed.

Lemma preserves_source_copy_dims src_group dst_group :
  h_file dst_group = DstFile -> preserves_source (copy_dims src_group dst_group).
Proof.
  intros Hf. unfold copy_dims. apply preserves_source_bind.
  { apply preserves_source_read. }
  intros items. apply preserves_source_for_each. intros [dim_name dim].
  destruct (String.eqb dim_name TIME); [apply preserves_source_ret|].
  apply preserves_source_bind; [apply preserves_source_read|].
  intros present. destruct present; [apply preserves_source_ret|].
  destruct (isunlimited dim); now apply preserves_source_at_handle.
Qed.

Lemma preserves_source_copy_vars src_group dst_group :
  h_file dst_group = DstFile -> preserves_source (copy_vars src_group dst_group).
Proof.
  intros Hf. unfold copy_vars. apply preserves_source_bind.
  { apply preserves_source_read. }
  intros items. apply preserves_source_for_each. intros [var_name var].
  destruct (String.eqb var_name TIME); [apply preserves_source_ret|].
  destruct (existsb (String.eqb var_name) ["lat"; "lon"]).
  { now apply preserves_source_store_variable. }
  destruct (existsb (String.eqb TIME) (v_dimensions var)).
  2: { now apply preserves_source_store_variable. }
  apply preserves_source_createVariable; [assumption|].
  apply preserves_source_bind; [now apply preserves_source_at_handle|].
  intros _. apply preserves_source_bind.
  { unfold tuple_index. destruct (index TIME (v_dimensions var));
      [apply preserves_source_ret | apply preserves_source_raise]. }
  intros time_axis. apply preserves_source_bind.
  { unfold mean. destruct (time_axis <? _);
      [apply preserves_source_ret | apply preserves_source_raise]. }
  intros mean_data. now apply preserves_source_at_handle.
Qed.

Lemma preserves_source_recursive_copy fuel : forall src_group dst_group,
  h_file dst_group = DstFile ->
  preserves_source (recursive_copy fuel src_group dst_group).
Proof.
  induction fuel as [|fuel IH]; intros src_group dst_group Hf.
  { apply preserves_source_raise. }
  simpl. apply preserves_source_bind; [apply preserves_source_read|].
  intros attrs. apply preserves_source_bind.
  { now apply preserves_source_at_handle. }
  intros _. apply preserves_source_bind.
  { now apply preserves_source_copy_dims. }
  intros _. apply preserves_source_bind.
  { now apply preserves_source_copy_vars. }
  intros _. apply preserves_source_bind; [apply preserves_source_read|].
  intros subgroups. apply preserves_source_for_each. intros [name subgrp].
  apply preserves_source_createGroup; [assumption|].
  now apply IH.
Qed.

(** C9.  Whatever the fuel, the handles and the outcome (completed or
    raised), a call of [recursive_copy] whose destination handle points
    into the destination file leaves the source dataset exactly as it
    was: only the destination dataset is written. *)
Theorem C9_source_unchanged fuel src_group dst_group s :
  h_file dst_group = DstFile ->
  src_ds (snd (recursive_copy fuel src_group dst_group s)) = src_ds s.
Proof. intros Hf. now apply preserves_source_recursive_copy. Qed.

Lemma C9_source_unchanged_witness :
  src_ds (snd (notebook moving_tree)) = moving_tree
  /\ src_ds (snd (notebook demo_tree)) = demo_tree.
Proof.
  split.
  - apply (C9_source_unchanged (depth moving_tree) (root SrcFile) (root DstFile)
             (mk_store moving_tree empty_group)). reflexivity.
  - apply (C9_source_unchanged (depth demo_tree) (root SrcFile) (root DstFile)
             (mk_store demo_tree empty_group)). reflexivity.
Defined.

(** C10.  Two runs of [recursive_copy], in any two stores and through
    any handles, that start from the same source group content, the same
    destination group content and the same dimensions visible above the
    destination, end with the same result and the same destination
    group. *)
Theorem C10_deterministic fuel1 fuel2 src1 dst1 s1 src2 dst2 s2 g d :
  h_file src1 <> h_file dst1 ->
  h_file src2 <> h_file dst2 ->
  well_formed g = true ->
  depth g <= fuel1 ->
  depth g <= fuel2 ->
  get_group src1 s1 = Some g ->
  get_group src2 s2 = Some g ->
  get_group dst1 s1 = Some d ->
  get_group dst2 s2 = Some d ->
  parent_dimensions dst1 s1 = parent_dimensions dst2 s2 ->
  fst (recursive_copy fuel1 src1 dst1 s1) = fst (recursive_copy fuel2 src2 dst2 s2)
  /\ get_group dst1 (snd (recursive_copy fuel1 src1 dst1 s1))
     = get_group dst2 (snd (recursive_copy fuel2 src2 dst2 s2)).
Proof.
  intros Hf1 Hf2 Hwf Hd1 Hd2 Hs1 Hs2 Hg1 Hg2 Hp.
  rewrite (simulates_recursive_copy fuel1 src1 dst1 g
             (parent_dimensions dst1 s1) Hf1 Hwf Hd1 s1)
    by (repeat split; [assumption | congruence]).
  rewrite (simulates_recursive_copy fuel2 src2 dst2 g
             (parent_dimensions dst2 s2) Hf2 Hwf Hd2 s2)
    by (repeat split; [assumption | congruence]).
  unfold at_handle. rewrite Hg1, Hg2, Hp.
  destruct (recursive_copy_g _ g d) as [r d']. simpl.
  split; [reflexivity|].
  rewrite !get_set_group by congruence. reflexivity.
Qed.

Lemma C10_deterministic_witness :
  fst (recursive_copy 2 (root SrcFile) (root DstFile)
         (mk_store demo_tree empty_group))
  = fst (recursive_copy 7 (child (root SrcFile) "archive") (root DstFile)
           (mk_store (mk_Group [] [] [] [("archive", demo_tree)]) empty_group))
  /\ get_group (root DstFile)
       (snd (recursive_copy 2 (root SrcFile) (root DstFile)
               (mk_store demo_tree empty_group)))
     = get_group (root DstFile)
         (snd (recursive_copy 7 (child (root SrcFile) "archive") (root DstFile)
                 (mk_store (mk_Group [] [] [] [("archive", demo_tree)])
                           empty_group))).
Proof.
  apply (C10_deterministic 2 7 (root SrcFile) (root DstFile)
           (mk_store demo_tree empty_group)
           (child (root SrcFile) "archive") (root DstFile)
           (mk_store (mk_Group [] [] [] [("archive", demo_tree)]) empty_group)
           demo_tree empty_group);
    try discriminate; try reflexivity; vm_compute; lia.
Defined.

(** ** What every step keeps true of the destination *)

Section Preservation.
Variable P : Group -> Prop.

Lemma preserves_g_ret {A} (a : A) : preserves_g P (ret a).
Proof. intros d H. exact H. Qed.

Lemma preserves_g_raise {A} e : preserves_g P (@raise Group A e).
Proof. intros d H. exact H. Qed.

Lemma preserves_g_bind {A B} (m : M Group A) (k : A -> M Group B) :
  preserves_g P m -> (forall a, preserves_g P (k a)) ->
  preserves_g P (bind m k).
Proof.
  intros Hm Hk d H. unfold bind. specialize (Hm d H).
  destruct (m d) as [[a|e] d1]; simpl in *; [|assumption].
  now apply Hk.
Qed.

Lemma preserves_g_for_each {B} (body : B -> M Group unit) l :
  (forall x, In x l -> preserves_g P (body x)) ->
  preserves_g P (for_each body l).
Proof.
  induction l as [|x r IH]; intros H; simpl.
  - apply preserves_g_ret.
  - apply preserves_g_bind; [apply H; now left|].
    intros _. apply IH. intros y Hy. apply H. now right.
Qed.

(** The three kinds of writes. *)
Hypothesis P_dimensions : forall d n dim,
  n <> TIME -> P d -> P (with_dimensions d (g_dimensions d ++ [(n, dim)])).
Hypothesis P_new_variable : forall d n v,
  n <> TIME -> P d -> P (with_variables d (g_variables d ++ [(n, v)])).
Hypothesis P_set_variable : forall d n v,
  Dict.mem n (g_variables d) = true ->
  P d -> P (with_variables d (Dict.set n v (g_variables d))).

Lemma preserves_g_copy_dims src : preserves_g P (copy_dims_g src).
Proof.
  unfold copy_dims_g. apply preserves_g_for_each. intros [n dim] _ d H.
  rewrite copy_dims_body_run. simpl.
  destruct (String.eqb_spec n TIME) as [|Hn]; [assumption|].
  destruct (Dict.mem n (g_dimensions d)); [assumption|].
  now apply P_dimensions.
Qed.

Lemma preserves_g_createVariable above n dt dims :
  n <> TIME -> preserves_g P (createVariable_g above n dt dims).
Proof.
  intros Hn d H. unfold createVariable_g.
  destruct (find _ dims); [assumption|].
  destruct (Dict.mem n (g_variables d)); [assumption|].
  now apply P_new_variable.
Qed.

Lemma preserves_g_on_variable n f : preserves_g P (on_variable n f).
Proof.
  intros d H. unfold on_variable.
  destruct (Dict.get n (g_variables d)) as [v|] eqn:E; [|assumption].
  destruct (f v) as [v'|e]; [|assumption].
  apply P_set_variable; [|assumption]. now apply get_Some_mem in E.
Qed.

Lemma preserves_g_store_variable above n dt dims attrs data :
  n <> TIME ->
  preserves_g P (createVariable_g above n dt dims ;;
                 var_setncatts_g n attrs ;;
                 var_assign_g n data).
Proof.
  intros Hn. apply preserves_g_bind.
  - now apply preserves_g_createVariable.
  - intros _. apply preserves_g_bind; [apply preserves_g_on_variable|].
    intros _. apply preserves_g_on_variable.
Qed.

Lemma preserves_g_copy_vars above src : preserves_g P (copy_vars_g above src).
Proof.
  unfold copy_vars_g. apply preserves_g_for_each. intros [n v] _.
  unfold copy_var_g.
  destruct (String.eqb_spec n TIME) as [|Hn]; [apply preserves_g_ret|].
  destruct (existsb (String.eqb n) ["lat"; "lon"]).
  { now apply preserves_g_store_variable. }
  destruct (existsb (String.eqb TIME) (v_dimensions v)).
  2: { now apply preserves_g_store_variable. }
  apply preserves_g_bind; [now apply preserves_g_createVariable|].
  intros _. apply preserves_g_bind; [apply preserves_g_on_variable|].
  intros _. apply preserves_g_bind.
  { unfold tuple_index. destruct (index TIME (v_dimensions v));
      [apply preserves_g_ret | apply preserves_g_raise]. }
  intros axis. apply preserves_g_bind.
  { unfold mean. destruct (axis <? _);
      [apply preserves_g_ret | apply preserves_g_raise]. }
  intros mean_data. apply preserves_g_on_variable.
Qed.
End Preservation.

(** *** No "time" in the destination *)

Lemma time_free_eq g :
  time_free g =
  negb (Dict.mem TIME (g_dimensions g))
  && negb (Dict.mem TIME (g_variables g))
  && forallb (fun c => time_free (snd c)) (g_groups g).
Proof. now destruct g. Qed.

Lemma mem_last_other {V} k n (v : V) d :
  n <> k -> Dict.mem k (d ++ [(n, v)]) = Dict.mem k d.
Proof.
  intros H. rewrite mem_app, mem_cons.
  change (Dict.mem k (@nil (string * V))) with false.
  apply not_eq_sym, String.eqb_neq in H. now rewrite H, !orb_false_r.
Qed.

Lemma mem_set {V} k n (v : V) d :
  Dict.mem n d = true -> Dict.mem k (Dict.set n v d) = Dict.mem k d.
Proof. intros H. unfold Dict.mem. now rewrite keys_set. Qed.

Lemma forallb_set {V} (f : V -> bool) n v (d : list (string * V)) :
  forallb (fun c => f (snd c)) d = true -> f v = true ->
  forallb (fun c => f (snd c)) (Dict.set n v d) = true.
Proof.
  intros Hd Hv. induction d as [|[k v0] r IH]; simpl in *.
  - now rewrite Hv.
  - rewrite andb_true_iff in Hd. destruct Hd as [H0 Hr].
    destruct (String.eqb n k); simpl.
    + now rewrite Hv, Hr.
    + now rewrite H0, IH.
Qed.

Lemma recursive_copy_g_time_free g : forall above,
  preserves_g (fun d => time_free d = true) (recursive_copy_g above g).
Proof.
  induction g as [a dm v c IH] using Group_induction. intros above.
  change (recursive_copy_g above (mk_Group a dm v c)) with
    (setncatts_g (Dict.comprehension (Dict.keys a) a) ;;
     copy_dims_g (mk_Group a dm v c) ;;
     copy_vars_g above (mk_Group a dm v c) ;;
     for_each (fun c0 =>
       createGroup_g (fst c0) ;;
       in_child (fst c0) (fun g =>
         recursive_copy_g (above ++ Dict.keys (g_dimensions g)) (snd c0))) c).
  assert (forall d n dim, n <> TIME -> time_free d = true ->
            time_free (with_dimensions d (g_dimensions d ++ [(n, dim)])) = true)
    as Hdims.
  { intros d n dim Hn. rewrite !time_free_eq. simpl.
    now rewrite mem_last_other. }
  assert (forall d n x, n <> TIME -> time_free d = true ->
            time_free (with_variables d (g_variables d ++ [(n, x)])) = true)
    as Hnew.
  { intros d n x Hn. rewrite !time_free_eq. simpl.
    now rewrite mem_last_other. }
  assert (forall d n x, Dict.mem n (g_variables d) = true ->
            time_free d = true ->
            time_free (with_variables d (Dict.set n x (g_variables d))) = true)
    as Hset.
  { intros d n x Hm. rewrite !time_free_eq. simpl. now rewrite mem_set. }
  apply preserves_g_bind.
  { intros d H. unfold setncatts_g, modify. cbn [snd].
    rewrite time_free_eq in *. exact H. }
  intros _. apply preserves_g_bind; [now apply preserves_g_copy_dims|].
  intros _. apply preserves_g_bind; [now apply preserves_g_copy_vars|].
  intros _. apply preserves_g_for_each. intros [n g] Hin.
  rewrite Forall_forall in IH. specialize (IH (n, g) Hin). simpl in IH.
  simpl fst. simpl snd. apply preserves_g_bind.
  { intros d H. unfold createGroup_g, modify. cbn [snd].
    destruct (Dict.mem n (g_groups d)); [assumption|].
    rewrite time_free_eq in *. cbn [with_groups g_dimensions g_variables g_groups].
    rewrite forallb_app. cbn [forallb snd]. rewrite time_free_eq.
    rewrite !andb_true_iff in *. tauto. }
  intros _ d Hd. unfold in_child.
  destruct (Dict.get n (g_groups d)) as [c0|] eqn:E; [|assumption].
  pose proof (IH (above ++ Dict.keys (g_dimensions d)) c0) as Hc.
  destruct (recursive_copy_g _ g c0) as [r c']. cbn [snd] in *.
  rewrite time_free_eq in Hd. rewrite time_free_eq.
  cbn [with_groups g_dimensions g_variables g_groups].
  rewrite !andb_true_iff in *. destruct Hd as ((H1 & H2) & H3).
  repeat split; try assumption.
  apply forallb_set; [assumption|]. apply Hc.
  rewrite forallb_forall in H3. apply (H3 (n, c0)). now apply get_In.
Qed.

Lemma time_free_get_at p : forall g gp,
  time_free g = true -> get_at p g = Some gp ->
  Dict.mem TIME (g_dimensions gp) = false
  /\ Dict.mem TIME (g_variables gp) = false.
Proof.
  induction p as [|n p IH]; intros g gp Hg Hget; simpl in Hget.
  - injection Hget as <-. rewrite time_free_eq in Hg.
    rewrite !andb_true_iff, !negb_true_iff in Hg. tauto.
  - destruct (Dict.get n (g_groups g)) as [c|] eqn:E; [|discriminate].
    apply (IH c); [|assumption].
    rewrite time_free_eq, !andb_true_iff in Hg. destruct Hg as (_ & Hc).
    rewrite forallb_forall in Hc. apply (Hc (n, c)). now apply get_In.
Qed.

(** C4.  Whether the run completes or raises, no group of the
    destination has a dimension named "time" or a variable named
    "time". *)
Theorem C4_no_time_in_destination src p g' :
  well_formed src = true ->
  get_at p (dst_ds (snd (notebook src))) = Some g' ->
  Dict.mem TIME (g_dimensions g') = false
  /\ Dict.mem TIME (g_variables g') = false.
Proof.
  intros Hwf. rewrite (notebook_run src Hwf). simpl.
  apply time_free_get_at.
  now apply (recursive_copy_g_time_free src [] empty_group).
Qed.

Lemma C4_no_time_in_destination_witness :
  exists g',
    get_at ["observed"] (dst_ds (snd (notebook demo_tree))) = Some g'
    /\ Dict.mem TIME (g_dimensions g') = false
    /\ Dict.mem TIME (g_variables g') = false.
Proof.
  eexists. split; [vm_compute; reflexivity|].
  apply (C4_no_time_in_destination demo_tree ["observed"]);
    [reflexivity | vm_compute; reflexivity].
Defined.

(** *** A dimension that nothing declares *)






(** ** A second run *)














(* ================================================================== *)
(** * Further properties of the three functions *)

(** ** Every group of the destination, field by field *)

Lemma notebook_group src s p g :
  well_formed src = true ->
  notebook src = (Ok tt, s) ->
  get_at p src = Some g ->
  exists g',
    get_at p (dst_ds s) = Some g'
    /\ g_attrs g' = g_attrs g
    /\ g_dimensions g' = filter not_time (g_dimensions g)
    /\ Dict.keys (g_variables g') = Dict.keys (filter not_time (g_variables g))
    /\ Dict.keys (g_groups g') = Dict.keys (g_groups g).
Proof.
  intros Hwf Hrun Hg.
  destruct (notebook_ok src s Hwf Hrun) as (_ & Hav).
  destruct (averaged_get_at p [] src _ g Hav Hg) as (above & g' & Hg' & Havg & _).
  exists g'. split; [assumption|].
  pose proof (well_formed_get_at p src g Hwf Hg) as Hwfg.
  rewrite averaged_eq in Havg. cbv zeta in Havg.
  destruct (all_some (map _ (filter not_time (g_variables g)))) as [vars|] eqn:Ev;
    [|discriminate].
  destruct (all_some (map _ (g_groups g))) as [subgroups|] eqn:Es;
    [|discriminate].
  apply some_inj in Havg. subst g'. simpl.
  repeat split.
  - apply copied_attrs_distinct. destruct g; simpl in Hwfg.
    rewrite !andb_true_iff in Hwfg. tauto.
  - exact (all_some_keys (averaged_variable _) _ _ Ev).
  - exact (all_some_keys (fun _ => averaged _) _ _ Es).
Qed.

(** X1.  On a completed run the destination counterpart of a source
    group has the source group's attributes, its dimensions without
    "time" (same order, same sizes), its variable names without "time"
    in the same order, and its subgroup names in the same order. *)
Theorem X1_group_copied src s p g :
  well_formed src = true ->
  notebook src = (Ok tt, s) ->
  get_at p src = Some g ->
  exists g',
    get_at p (dst_ds s) = Some g'
    /\ g_attrs g' = g_attrs g
    /\ g_dimensions g' = filter not_time (g_dimensions g)
    /\ Dict.keys (g_variables g') = Dict.keys (filter not_time (g_variables g))
    /\ Dict.keys (g_groups g') = Dict.keys (g_groups g).
Proof. apply notebook_group. Qed.

Lemma X1_group_copied_witness :
  exists g',
    get_at [] (dst_ds (snd (notebook demo_tree))) = Some g'
    /\ g_attrs g' = [("title", att_text "demo")]
    /\ g_dimensions g' = [("lat", Fixed 5); ("lon", Fixed 5)]
    /\ Dict.keys (g_variables g') = ["lat"]
    /\ Dict.keys (g_groups g') = ["observed"].
Proof.
  apply (X1_group_copied demo_tree (snd (notebook demo_tree)) [] demo_tree);
    reflexivity.
Defined.

Lemma mem_same_keys {V W} n (l : list (string * V)) (l' : list (string * W)) :
  Dict.keys l' = Dict.keys l -> Dict.mem n l' = Dict.mem n l.
Proof. unfold Dict.mem. now intros ->. Qed.

Lemma get_same_keys {V W} n (l : list (string * V)) (l' : list (string * W)) b :
  Dict.keys l' = Dict.keys l -> Dict.get n l' = Some b ->
  exists a, Dict.get n l = Some a.
Proof.
  intros Hk Hget. apply get_Some_mem in Hget.
  rewrite (mem_same_keys n l l' Hk) in Hget.
  destruct (Dict.get n l) as [a|] eqn:E; [now exists a|].
  apply get_mem in E. congruence.
Qed.

Lemma averaged_group_keys above g d :
  averaged above g = Some d -> Dict.keys (g_groups d) = Dict.keys (g_groups g).
Proof.
  rewrite averaged_eq. cbv zeta.
  destruct (all_some (map _ (filter not_time (g_variables g)))) as [vars|];
    [|discriminate].
  destruct (all_some (map _ (g_groups g))) as [subgroups|] eqn:Es;
    [|discriminate].
  intros H. apply some_inj in H. subst d. simpl.
  exact (all_some_keys (fun _ => averaged _) _ _ Es).
Qed.

(** A path that leads to a group of the destination leads to a group
    of the source. *)
Lemma averaged_get_at_source p : forall above g d dp,
  averaged above g = Some d ->
  get_at p d = Some dp ->
  exists gp, get_at p g = Some gp.
Proof.
  induction p as [|n p IH]; intros above g d dp Hav Hget; simpl in *.
  - now exists g.
  - destruct (Dict.get n (g_groups d)) as [c'|] eqn:Ec'; [|discriminate].
    destruct (get_same_keys n (g_groups g) (g_groups d) c'
                (averaged_group_keys _ _ _ Hav) Ec') as (c & Ec).
    rewrite Ec.
    destruct (averaged_child _ _ _ _ _ Hav Ec) as (c2 & Hc2 & Havc).
    rewrite Ec' in Hc2. apply some_inj in Hc2. subst c2.
    now apply (IH _ c c' dp Havc).
Qed.

Lemma get_filter_source {V} n (v : V) (l : list (string * V)) :
  distinct (Dict.keys l) = true ->
  Dict.get n (filter not_time l) = Some v ->
  n <> TIME /\ Dict.get n l = Some v.
Proof.
  intros Hd Hget. apply get_In, filter_In in Hget. destruct Hget as [Hin Hnt].
  unfold not_time in Hnt. simpl in Hnt. apply negb_true_iff in Hnt.
  split; [now apply String.eqb_neq | now apply distinct_get].
Qed.

(** X2.  The destination of a completed run holds nothing the source
    does not: every group of the destination sits at the path of a
    source group, every dimension of it is a dimension of that source
    group with the same size and a name other than "time", and every
    variable of it has the name, other than "time", of a variable of
    that source group. *)
Theorem X2_nothing_added src s p g' :
  well_formed src = true ->
  notebook src = (Ok tt, s) ->
  get_at p (dst_ds s) = Some g' ->
  exists g,
    get_at p src = Some g
    /\ (forall name dim,
          Dict.get name (g_dimensions g') = Some dim ->
          name <> TIME /\ Dict.get name (g_dimensions g) = Some dim)
    /\ (forall name v',
          Dict.get name (g_variables g') = Some v' ->
          name <> TIME /\ exists v, Dict.get name (g_variables g) = Some v).
Proof.
  intros Hwf Hrun Hg'.
  destruct (notebook_ok src s Hwf Hrun) as (_ & Hav).
  destruct (averaged_get_at_source p [] src _ g' Hav Hg') as (g & Hg).
  destruct (notebook_group src s p g Hwf Hrun Hg)
    as (g2 & Hg2 & _ & Hdims & Hvars & _).
  rewrite Hg' in Hg2. apply some_inj in Hg2. subst g2.
  pose proof (well_formed_get_at p src g Hwf Hg) as Hwfg.
  assert (distinct (Dict.keys (g_dimensions g)) = true
          /\ distinct (Dict.keys (g_variables g)) = true) as [Hdd Hdv].
  { destruct g; simpl in Hwfg. rewrite !andb_true_iff in Hwfg. tauto. }
  exists g. split; [assumption|]. split.
  - intros name dim Hget. rewrite Hdims in Hget.
    now apply get_filter_source.
  - intros name v' Hget.
    destruct (get_same_keys name (filter not_time (g_variables g))
                (g_variables g') v' Hvars Hget) as (v & Hv).
    apply get_filter_source in Hv; [|assumption].
    destruct Hv as [Hn Hv]. split; [assumption | now exists v].
Qed.

Lemma X2_nothing_added_witness :
  exists g,
    get_at ["observed"] demo_tree = Some g
    /\ (forall name dim,
          Dict.get name (@nil (string * Dimension)) = Some dim ->
          name <> TIME /\ Dict.get name (g_dimensions g) = Some dim)
    /\ (forall name v',
          Dict.get name
            [("precipitation",
              mk_Variable f4 ["lat"; "lon"] [("units", att_text "mm/hr")]
                (mk_ndarray [5; 5] (repeat 2%Q 25)))] = Some v' ->
          name <> TIME /\ exists v, Dict.get name (g_variables g) = Some v).
Proof.
  apply (X2_nothing_added demo_tree (snd (notebook demo_tree)) ["observed"]
           (mk_Group [] []
              [("precipitation",
                mk_Variable f4 ["lat"; "lon"] [("units", att_text "mm/hr")]
                  (mk_ndarray [5; 5] (repeat 2%Q 25)))] []));
    reflexivity.
Defined.

(** ** [copy_dims] on a destination that already has dimensions *)

Lemma copied_dimensions_exact l : forall acc,
  distinct (Dict.keys l) = true ->
  copied_dimensions acc l
  = acc ++ filter (fun kv => not_time kv && negb (Dict.mem (fst kv) acc)) l.
Proof.
  induction l as [|[k d] r IH]; intros acc Hd.
  - simpl. now rewrite app_nil_r.
  - simpl in Hd. rewrite andb_true_iff, negb_true_iff in Hd.
    destruct Hd as (Hk & Hd).
    rewrite copied_dimensions_cons. cbn [filter fst].
    change (not_time (k, d)) with (negb (String.eqb k TIME)).
    destruct (String.eqb k TIME); cbn [negb andb]; [now apply IH|].
    destruct (Dict.mem k acc) eqn:Em; cbn [negb]; [now apply IH|].
    rewrite (IH _ Hd), <- app_assoc. cbn [app]. do 2 f_equal.
    apply filter_ext_in. intros [k' d'] Hin. cbn [fst]. do 2 f_equal.
    apply mem_last_other. intros ->.
    apply (in_map fst) in Hin. apply existsb_eqb_In in Hin.
    unfold Dict.keys in Hk. simpl in Hin. congruence.
Qed.

Lemma copied_dimensions_grows n l : forall acc,
  Dict.mem n acc = true -> Dict.mem n (copied_dimensions acc l) = true.
Proof.
  induction l as [|[k d] r IH]; intros acc Hm; [assumption|].
  rewrite copied_dimensions_cons. simpl fst.
  destruct (String.eqb k TIME); [now apply IH|].
  destruct (Dict.mem k acc); [now apply IH|].
  apply IH. now rewrite mem_app, Hm.
Qed.

Lemma copied_dimensions_covers l : forall acc kv,
  In kv l -> String.eqb (fst kv) TIME = false ->
  Dict.mem (fst kv) (copied_dimensions acc l) = true.
Proof.
  induction l as [|[k d] r IH]; intros acc kv Hin Hnt; [destruct Hin|].
  rewrite copied_dimensions_cons. simpl fst.
  destruct Hin as [<-|Hin].
  - simpl in Hnt. rewrite Hnt.
    destruct (Dict.mem k acc) eqn:Em.
    + now apply copied_dimensions_grows.
    + apply copied_dimensions_grows.
      rewrite mem_app, mem_cons, String.eqb_refl. now rewrite orb_true_r.
  - now apply IH.
Qed.

Lemma copied_dimensions_nothing_new l : forall acc,
  (forall kv, In kv l ->
     String.eqb (fst kv) TIME = false -> Dict.mem (fst kv) acc = true) ->
  copied_dimensions acc l = acc.
Proof.
  induction l as [|[k d] r IH]; intros acc H; [reflexivity|].
  rewrite copied_dimensions_cons. simpl fst.
  assert (forall kv, In kv r ->
            String.eqb (fst kv) TIME = false -> Dict.mem (fst kv) acc = true)
    as Hr by (intros kv Hin; apply H; now right).
  destruct (String.eqb k TIME) eqn:Et; [now apply IH|].
  pose proof (H (k, d) (or_introl eq_refl) Et) as Hk. simpl in Hk.
  rewrite Hk. now apply IH.
Qed.

Lemma copy_dims_at src_group dst_group s gs gd :
  h_file src_group <> h_file dst_group ->
  get_group src_group s = Some gs ->
  get_group dst_group s = Some gd ->
  copy_dims src_group dst_group s
  = (Ok tt,
     set_group dst_group
       (with_dimensions gd
          (copied_dimensions (g_dimensions gd) (g_dimensions gs))) s).
Proof.
  intros Hfiles Hsrc Hdst.
  rewrite (simulates_copy_dims src_group dst_group gs
             (parent_dimensions dst_group s) Hfiles s).
  - unfold at_handle. rewrite Hdst. now rewrite copy_dims_g_run.
  - repeat split; [assumption | congruence].
Qed.

(** X3.  [copy_dims] only appends: the destination group keeps the
    dimensions it had, first and unchanged, and receives after them, in
    the source's order, the source dimensions that are not named "time"
    and whose name it did not have. *)
Theorem X3_copy_dims_appends src_group dst_group s gs gd :
  h_file src_group <> h_file dst_group ->
  get_group src_group s = Some gs ->
  get_group dst_group s = Some gd ->
  distinct (Dict.keys (g_dimensions gs)) = true ->
  copy_dims src_group dst_group s
  = (Ok tt,
     set_group dst_group
       (with_dimensions gd
          (g_dimensions gd
           ++ filter (fun kv => not_time kv
                                && negb (Dict.mem (fst kv) (g_dimensions gd)))
                     (g_dimensions gs))) s).
Proof.
  intros Hfiles Hsrc Hdst Hd.
  rewrite (copy_dims_at _ _ _ gs gd Hfiles Hsrc Hdst).
  now rewrite copied_dimensions_exact.
Qed.

Lemma X3_copy_dims_appends_witness :
  copy_dims (root SrcFile) (root DstFile)
            (mk_store demo_tree
               (mk_Group [] [("station", Fixed 3); ("lon", Unlimited)] [] []))
  = (Ok tt,
     mk_store demo_tree
       (mk_Group []
          [("station", Fixed 3); ("lon", Unlimited); ("lat", Fixed 5)] [] [])).
Proof.
  apply (X3_copy_dims_appends (root SrcFile) (root DstFile)
           (mk_store demo_tree
              (mk_Group [] [("station", Fixed 3); ("lon", Unlimited)] [] []))
           demo_tree
           (mk_Group [] [("station", Fixed 3); ("lon", Unlimited)] [] []));
    [discriminate | reflexivity | reflexivity | reflexivity].
Defined.

(** X4.  Calling [copy_dims] a second time with the same groups changes
    nothing and does not raise: every name is found in the destination
    and skipped. *)
Theorem X4_copy_dims_twice src_group dst_group s gs gd :
  h_file src_group <> h_file dst_group ->
  get_group src_group s = Some gs ->
  get_group dst_group s = Some gd ->
  (copy_dims src_group dst_group ;; copy_dims src_group dst_group) s
  = copy_dims src_group dst_group s.
Proof.
  intros Hfiles Hsrc Hdst.
  set (gd1 := with_dimensions gd
                (copied_dimensions (g_dimensions gd) (g_dimensions gs))).
  pose proof (copy_dims_at _ _ _ gs gd Hfiles Hsrc Hdst) as H1. fold gd1 in H1.
  rewrite (bind_ok _ _ _ tt _ H1), H1.
  assert (get_group dst_group (set_group dst_group gd1 s) = Some gd1) as Hdst1
    by (apply get_set_group; congruence).
  rewrite (copy_dims_at _ _ _ gs gd1 Hfiles); [|now rewrite get_set_group_other|assumption].
  rewrite set_set_group. do 2 f_equal.
  unfold gd1 at 2. simpl g_dimensions.
  rewrite copied_dimensions_nothing_new.
  - reflexivity.
  - intros kv Hin Hnt. now apply copied_dimensions_covers.
Qed.

Lemma X4_copy_dims_twice_witness :
  (copy_dims (root SrcFile) (root DstFile) ;;
   copy_dims (root SrcFile) (root DstFile)) (mk_store demo_tree empty_group)
  = (Ok tt,
     mk_store demo_tree
       (mk_Group [] [("lat", Fixed 5); ("lon", Fixed 5)] [] [])).
Proof.
  rewrite (X4_copy_dims_twice (root SrcFile) (root DstFile)
             (mk_store demo_tree empty_group) demo_tree empty_group);
    [reflexivity | discriminate | reflexivity | reflexivity].
Defined.

(** ** [copy_vars] on a destination that already has variables *)

Lemma variables_kept_new n (d : Group) (k : string) (v : NcVariable) :
  k <> TIME ->
  Dict.mem n (g_variables d) = true ->
  Dict.mem n (g_variables (with_variables d (g_variables d ++ [(k, v)]))) = true.
Proof. intros _ H. simpl. now rewrite mem_app, H. Qed.

Lemma variables_kept_set n (d : Group) (k : string) (v : NcVariable) :
  Dict.mem k (g_variables d) = true ->
  Dict.mem n (g_variables d) = true ->
  Dict.mem n (g_variables (with_variables d (Dict.set k v (g_variables d)))) = true.
Proof. intros Hk H. simpl. now rewrite mem_set. Qed.

Lemma copy_var_g_keeps n above k v d :
  Dict.mem n (g_variables d) = true ->
  Dict.mem n (g_variables (snd (copy_var_g above k v d))) = true.
Proof.
  intros H.
  pose proof (preserves_g_copy_vars
                (fun d => Dict.mem n (g_variables d) = true)
                (variables_kept_new n) (variables_kept_set n)
                above (mk_Group [] [] [(k, v)] []) d H) as Hp.
  change (Dict.mem n (g_variables
            (snd (bind (copy_var_g above k v) (fun _ => ret tt) d))) = true)
    in Hp.
  unfold bind in Hp.
  destruct (copy_var_g above k v d) as [[[]|e] d']; exact Hp.
Qed.

(** [createVariable] is the first statement of every branch. *)
Lemma copy_var_g_existing above n v d :
  String.eqb n TIME = false ->
  Dict.mem n (g_variables d) = true ->
  exists e, fst (copy_var_g above n v d) = Raise e.
Proof.
  intros Hn Hm. unfold copy_var_g. rewrite Hn.
  assert (forall dims (k : unit -> M Group unit),
            exists e, fst (bind (createVariable_g above n (v_datatype v) dims) k d)
                      = Raise e) as Hcreate.
  { intros dims k. unfold bind, createVariable_g.
    destruct (find _ dims); [simpl; eauto|]. rewrite Hm. simpl. eauto. }
  destruct (existsb (String.eqb n) ["lat"; "lon"]); [apply Hcreate|].
  destruct (existsb (String.eqb TIME) (v_dimensions v)); apply Hcreate.
Qed.

Lemma copy_vars_g_existing above n l : forall d,
  In n (Dict.keys l) ->
  String.eqb n TIME = false ->
  Dict.mem n (g_variables d) = true ->
  exists e, fst (for_each (fun '(k, v) => copy_var_g above k v) l d) = Raise e.
Proof.
  induction l as [|[k v] r IH]; intros d Hin Hn Hm; [destruct Hin|].
  rewrite for_each_cons.
  pose proof (copy_var_g_keeps n above k v d Hm) as Hkeep.
  destruct (String.eqb_spec n k) as [<-|Hnk].
  - destruct (copy_var_g_existing above n v d Hn Hm) as (e & He).
    destruct (copy_var_g above n v d) as [[[]|e'] d']; simpl in He;
      [discriminate | now exists e'].
  - destruct Hin as [Hin|Hin]; [simpl in Hin; congruence|].
    destruct (copy_var_g above k v d) as [[[]|e'] d']; simpl in *.
    + now apply IH.
    + now exists e'.
Qed.

(** X5.  [copy_vars] has no guard like the one of [copy_dims]: when the
    destination group already has a variable whose name, other than
    "time", is the name of a source variable, the call raises. *)
Theorem X5_copy_vars_existing src_group dst_group s gs gd n :
  h_file src_group <> h_file dst_group ->
  get_group src_group s = Some gs ->
  get_group dst_group s = Some gd ->
  In n (Dict.keys (g_variables gs)) ->
  n <> TIME ->
  Dict.mem n (g_variables gd) = true ->
  exists e, fst (copy_vars src_group dst_group s) = Raise e.
Proof.
  intros Hfiles Hsrc Hdst Hin Hn Hm.
  rewrite (simulates_copy_vars src_group dst_group gs
             (parent_dimensions dst_group s) Hfiles s)
    by (repeat split; [assumption | congruence]).
  unfold at_handle. rewrite Hdst.
  apply String.eqb_neq in Hn.
  destruct (copy_vars_g_existing (parent_dimensions dst_group s) n
              (g_variables gs) gd Hin Hn Hm) as (e & He).
  unfold copy_vars_g.
  destruct (for_each _ (g_variables gs) gd) as [r d']. simpl in *.
  now exists e.
Qed.

Lemma X5_copy_vars_existing_witness :
  exists e,
    fst (copy_vars (root SrcFile) (root DstFile)
           (mk_store demo_tree
              (mk_Group [] [("lat", Fixed 5)] [("lat", latitude)] [])))
    = Raise e.
Proof.
  apply (X5_copy_vars_existing (root SrcFile) (root DstFile)
           (mk_store demo_tree
              (mk_Group [] [("lat", Fixed 5)] [("lat", latitude)] []))
           demo_tree (mk_Group [] [("lat", Fixed 5)] [("lat", latitude)] [])
           "lat");
    try reflexivity; try discriminate.
  now left.
Defined.

Lemma recursive_copy_g_existing above g d n :
  In n (Dict.keys (g_variables g)) ->
  String.eqb n TIME = false ->
  Dict.mem n (g_variables d) = true ->
  exists e, fst (recursive_copy_g above g d) = Raise e.
Proof.
  intros Hin Hn Hm. destruct g as [a dm v c].
  change (recursive_copy_g above (mk_Group a dm v c)) with
    (setncatts_g (Dict.comprehension (Dict.keys a) a) ;;
     copy_dims_g (mk_Group a dm v c) ;;
     copy_vars_g above (mk_Group a dm v c) ;;
     for_each (fun c0 =>
       createGroup_g (fst c0) ;;
       in_child (fst c0) (fun g =>
         recursive_copy_g (above ++ Dict.keys (g_dimensions g)) (snd c0))) c).
  rewrite (bind_ok _ _ _ tt
             (with_attrs d (Dict.update (g_attrs d)
                              (Dict.comprehension (Dict.keys a) a))))
    by reflexivity.
  erewrite bind_ok; [|apply copy_dims_g_run].
  destruct (copy_vars_g_existing above n v
              (with_dimensions
                 (with_attrs d (Dict.update (g_attrs d)
                                  (Dict.comprehension (Dict.keys a) a)))
                 (copied_dimensions (g_dimensions d) dm)) Hin Hn Hm)
    as (e & He).
  unfold bind, copy_vars_g. simpl g_variables in *. simpl g_dimensions in *.
  destruct (for_each _ v _) as [[[]|e'] d']; simpl in He;
    [discriminate | now exists e'].
Qed.

(** X6.  [recursive_copy] cannot be repeated into the same destination:
    with a destination group that already has a variable named like a
    source variable other than "time" (as after a first run), the call
    raises. *)
Theorem X6_recursive_copy_not_repeatable fuel src_group dst_group s g gd n :
  h_file src_group <> h_file dst_group ->
  well_formed g = true ->
  depth g <= fuel ->
  get_group src_group s = Some g ->
  get_group dst_group s = Some gd ->
  In n (Dict.keys (g_variables g)) ->
  n <> TIME ->
  Dict.mem n (g_variables gd) = true ->
  exists e, fst (recursive_copy fuel src_group dst_group s) = Raise e.
Proof.
  intros Hfiles Hwf Hfuel Hsrc Hdst Hin Hn Hm.
  rewrite (simulates_recursive_copy fuel src_group dst_group g
             (parent_dimensions dst_group s) Hfiles Hwf Hfuel s)
    by (repeat split; [assumption | congruence]).
  unfold at_handle. rewrite Hdst. apply String.eqb_neq in Hn.
  destruct (recursive_copy_g_existing (parent_dimensions dst_group s) g gd n
              Hin Hn Hm) as (e & He).
  destruct (recursive_copy_g _ g gd) as [r d']. simpl in *. now exists e.
Qed.

Lemma X6_recursive_copy_not_repeatable_witness :
  fst (notebook demo_tree) = Ok tt
  /\ exists e,
       fst (recursive_copy (depth demo_tree) (root SrcFile) (root DstFile)
              (snd (notebook demo_tree))) = Raise e.
Proof.
  split; [reflexivity|].
  apply (X6_recursive_copy_not_repeatable (depth demo_tree)
           (root SrcFile) (root DstFile) (snd (notebook demo_tree))
           demo_tree averaged_tree "lat");
    try reflexivity; try discriminate.
  now left.
Defined.

(** ** When a run completes, and how it fails *)

(** X7.  A run over a well-formed source completes only if every
    variable that is copied asks only for dimensions the destination has
    by then: those of the variable's group and of its ancestors other
    than "time".  "lat" and "lon" ask for their whole tuple, every other
    variable for its tuple without "time". *)
Theorem X7_completion_needs_dimensions src :
  well_formed src = true ->
  fst (notebook src) = Ok tt ->
  copyable [] src = true.
Proof.
  intros Hwf. rewrite <- (averaged_is_some src Hwf []).
  pose proof (notebook_averaged src Hwf) as H.
  destruct (averaged [] src) as [d|]; [reflexivity|].
  destruct H as (e & d & ->). discriminate.
Qed.

Lemma X7_completion_needs_dimensions_witness :
  fst (notebook demo_tree) = Ok tt /\ copyable [] demo_tree = true.
Proof.
  split; [reflexivity|].
  apply (X7_completion_needs_dimensions demo_tree); reflexivity.
Defined.

(** X8.  When a run over a well-formed source ends with the dimension
    lookup error of [createVariable], the name it reports is a dimension
    that a copied variable asks for and that the destination does not
    have there. *)
Theorem X8_lookup_error_names_missing src name :
  well_formed src = true ->
  fst (notebook src) = Raise (DimensionNotFound name) ->
  lookup_fails name [] src = true.
Proof.
  intros Hwf Hrun. rewrite (notebook_run src Hwf) in Hrun. simpl in Hrun.
  pose proof (recursive_copy_g_run src Hwf []) as Hok.
  unfold run_as_averaged in Hok.
  destruct (averaged [] src) as [d|] eqn:Hav.
  - rewrite Hok in Hrun. discriminate.
  - destruct (recursive_copy_g_lookup_error src Hwf [] Hav)
      as (x & d' & Hx & Hmiss).
    rewrite Hx in Hrun. simpl in Hrun. injection Hrun as <-. exact Hmiss.
Qed.

Lemma X8_lookup_error_names_missing_witness :
  fst (notebook moving_tree) = Raise (DimensionNotFound "time")
  /\ lookup_fails "time" [] moving_tree = true.
Proof.
  split; [reflexivity|].
  apply (X8_lookup_error_names_missing moving_tree "time"); reflexivity.
Defined.

(** ** What [copy_vars] leaves alone *)

Lemma get_last_other {V} n k (v : V) d :
  n <> k -> Dict.get n (d ++ [(k, v)]) = Dict.get n d.
Proof.
  intros H. induction d as [|[k' v'] r IH]; simpl.
  - apply String.eqb_neq in H. now rewrite H.
  - now rewrite IH.
Qed.

Lemma createVariable_g_same_but above k dt dims d0 :
  preserves_g (same_but_variable k d0) (createVariable_g above k dt dims).
Proof.
  intros d (Ha & Hd & Hg & Hv). unfold createVariable_g.
  destruct (find _ dims); [now split|].
  destruct (Dict.mem k (g_variables d)); [now split|].
  unfold same_but_variable. simpl.
  split; [assumption|]. split; [assumption|]. split; [assumption|].
  intros n Hn. rewrite get_last_other by assumption. now apply Hv.
Qed.

Lemma on_variable_same_but k f d0 :
  preserves_g (same_but_variable k d0) (on_variable k f).
Proof.
  intros d (Ha & Hd & Hg & Hv). unfold on_variable.
  destruct (Dict.get k (g_variables d)); [|now split].
  destruct (f n); [|now split].
  unfold same_but_variable. simpl.
  split; [assumption|]. split; [assumption|]. split; [assumption|].
  intros m Hm. rewrite get_set_other by assumption. now apply Hv.
Qed.

Lemma store_variable_same_but above k dt dims attrs data d0 :
  preserves_g (same_but_variable k d0)
    (createVariable_g above k dt dims ;;
     var_setncatts_g k attrs ;;
     var_assign_g k data).
Proof.
  apply preserves_g_bind; [apply createVariable_g_same_but|].
  intros _. apply preserves_g_bind; [apply on_variable_same_but|].
  intros _. apply on_variable_same_but.
Qed.

Lemma copy_var_g_same_but above k v d0 :
  preserves_g (same_but_variable k d0) (copy_var_g above k v).
Proof.
  unfold copy_var_g.
  destruct (String.eqb k TIME); [apply preserves_g_ret|].
  destruct (existsb (String.eqb k) ["lat"; "lon"]).
  { apply store_variable_same_but. }
  destruct (existsb (String.eqb TIME) (v_dimensions v)).
  2: { apply store_variable_same_but. }
  apply preserves_g_bind; [apply createVariable_g_same_but|].
  intros _. apply preserves_g_bind; [apply on_variable_same_but|].
  intros _. apply preserves_g_bind.
  { unfold tuple_index. destruct (index TIME (v_dimensions v));
      [apply preserves_g_ret | apply preserves_g_raise]. }
  intros axis. apply preserves_g_bind.
  { unfold mean. destruct (axis <? _);
      [apply preserves_g_ret | apply preserves_g_raise]. }
  intros mean_data. apply on_variable_same_but.
Qed.

(** With the name already there, [createVariable] raises before
    anything is written. *)
Lemma copy_var_g_existing_state above k v d :
  Dict.mem k (g_variables d) = true ->
  snd (copy_var_g above k v d) = d.
Proof.
  intros Hm. unfold copy_var_g.
  destruct (String.eqb k TIME); [reflexivity|].
  assert (forall dims (c : unit -> M Group unit),
            snd (bind (createVariable_g above k (v_datatype v) dims) c d) = d)
    as Hcreate.
  { intros dims c. unfold bind, createVariable_g.
    destruct (find _ dims); [reflexivity|]. now rewrite Hm. }
  destruct (existsb (String.eqb k) ["lat"; "lon"]); [apply Hcreate|].
  destruct (existsb (String.eqb TIME) (v_dimensions v)); apply Hcreate.
Qed.

Lemma copy_var_g_extends above k v d0 :
  preserves_g (extends_variables d0) (copy_var_g above k v).
Proof.
  intros d (Ha & Hd & Hg & Hv).
  destruct (Dict.mem k (g_variables d)) eqn:Ek.
  { rewrite (copy_var_g_existing_state above k v d Ek). now split. }
  destruct (copy_var_g_same_but above k v d d) as (Ha' & Hd' & Hg' & Hv');
    [unfold same_but_variable; tauto|].
  split; [congruence|]. split; [congruence|]. split; [congruence|].
  intros n Hn. rewrite <- (Hv n Hn). apply Hv'. intros ->.
  specialize (Hv k Hn). apply get_mem in Ek.
  destruct (Dict.get k (g_variables d0)) eqn:E; [congruence|].
  apply get_mem in E. congruence.
Qed.

(** X9.  Whether it completes or raises, [copy_vars] on a
    destination group that sees no unlimited dimension leaves the
    attributes, the dimensions and the subgroups of the group as they
    were, and every variable the group already had with its content: it
    only adds variables. *)
Theorem X9_copy_vars_only_adds src_group dst_group s gs gd :
  h_file src_group <> h_file dst_group ->
  get_group src_group s = Some gs ->
  get_group dst_group s = Some gd ->
  all_fixed (dimensions_along (h_path dst_group)
                              (dataset (h_file dst_group) s)) = true ->
  exists gd',
    snd (copy_vars src_group dst_group s) = set_group dst_group gd' s
    /\ g_attrs gd' = g_attrs gd
    /\ g_dimensions gd' = g_dimensions gd
    /\ g_groups gd' = g_groups gd
    /\ forall n, Dict.mem n (g_variables gd) = true ->
                 Dict.get n (g_variables gd') = Dict.get n (g_variables gd).
Proof.
  intros Hfiles Hsrc Hdst _.
  rewrite (simulates_copy_vars src_group dst_group gs
             (parent_dimensions dst_group s) Hfiles s)
    by (repeat split; [assumption | congruence]).
  unfold at_handle. rewrite Hdst.
  pose proof (preserves_g_for_each (extends_variables gd)
                (fun '(k, v) => copy_var_g (parent_dimensions dst_group s) k v)
                (g_variables gs)) as Hloop.
  unfold copy_vars_g.
  destruct (for_each _ (g_variables gs) gd) as [r gd'] eqn:E.
  exists gd'. split; [reflexivity|].
  assert (extends_variables gd gd') as H.
  { replace gd' with (snd (for_each
        (fun '(k, v) => copy_var_g (parent_dimensions dst_group s) k v)
        (g_variables gs) gd)) by now rewrite E.
    apply Hloop; [|unfold extends_variables; tauto].
    intros [k v] _. apply copy_var_g_extends. }
  exact H.
Qed.

(** The call writes the averaged counts and leaves the variable on the
    grid as it was. *)
Lemma X9_copy_vars_only_adds_witness :
  fst (copy_vars (root SrcFile) (root DstFile) gridded_store) = Ok tt
  /\ Dict.mem "counts"
       (g_variables
          (dst_ds (snd (copy_vars (root SrcFile) (root DstFile) gridded_store))))
     = true
  /\ exists gd',
       snd (copy_vars (root SrcFile) (root DstFile) gridded_store)
       = mk_store counts_tree gd'
       /\ g_attrs gd' = [("note", att_text "kept")]
       /\ g_dimensions gd' = [("lat", Fixed 2)]
       /\ Dict.get "bounds" (g_variables gd') = Some cell_bounds.
Proof.
  split; [vm_compute; reflexivity|]. split; [vm_compute; reflexivity|].
  destruct (X9_copy_vars_only_adds (root SrcFile) (root DstFile) gridded_store
              counts_tree (dst_ds gridded_store))
    as (gd' & Hrun & Ha & Hd & _ & Hv);
    [discriminate | reflexivity | reflexivity | reflexivity |].
  exists gd'. split; [exact Hrun|]. split; [exact Ha|]. split; [exact Hd|].
  apply (Hv "bounds"). reflexivity.
Defined.

(** ** A call works below its destination handle only *)

Lemma get_at_set_at_apart c : forall a b p q new g,
  a <> b ->
  get_at (c ++ b :: q) (set_at (c ++ a :: p) new g) = get_at (c ++ b :: q) g.
Proof.
  induction c as [|n c IH]; intros a b p q new g Hab; simpl.
  - destruct (Dict.get a (g_groups g)) as [ch|]; [|reflexivity].
    simpl. now rewrite get_set_other by congruence.
  - destruct (Dict.get n (g_groups g)) as [ch|] eqn:E; simpl.
    + rewrite get_set_same. now apply IH.
    + now rewrite E.
Qed.

(** X10.  A call of [recursive_copy] writes nothing outside the group
    its destination handle denotes: when the two paths share no
    unlimited dimension, a group of the destination file that is reached
    by a path leaving the destination path at some point is, whatever
    the outcome, as it was before the call. *)
Theorem X10_recursive_copy_stays_below
    fuel src_group dst_group s g gd c a b p q :
  h_file src_group <> h_file dst_group ->
  well_formed g = true ->
  depth g <= fuel ->
  get_group src_group s = Some g ->
  get_group dst_group s = Some gd ->
  h_path dst_group = c ++ a :: p ->
  a <> b ->
  all_fixed (dimensions_along c (dataset (h_file dst_group) s)) = true ->
  get_group (mk_handle (h_file dst_group) (c ++ b :: q))
            (snd (recursive_copy fuel src_group dst_group s))
  = get_group (mk_handle (h_file dst_group) (c ++ b :: q)) s.
Proof.
  intros Hfiles Hwf Hfuel Hsrc Hdst Hpath Hab _.
  rewrite (simulates_recursive_copy fuel src_group dst_group g
             (parent_dimensions dst_group s) Hfiles Hwf Hfuel s)
    by (repeat split; [assumption | congruence]).
  unfold at_handle. rewrite Hdst.
  destruct (recursive_copy_g _ g gd) as [r gd']. simpl snd.
  unfold get_group, set_group. simpl h_file. simpl h_path. rewrite Hpath.
  destruct (h_file dst_group), s; simpl; now apply get_at_set_at_apart.
Qed.

Lemma X10_recursive_copy_stays_below_witness :
  fst (recursive_copy 2 (root SrcFile) (child (root DstFile) "observed")
         (mk_store demo_tree
            (mk_Group [] [("lat", Fixed 5); ("lon", Fixed 5)] []
               [("model", averaged_tree); ("observed", empty_group)])))
  = Ok tt
  /\ get_group (mk_handle DstFile ["model"])
       (snd (recursive_copy 2 (root SrcFile) (child (root DstFile) "observed")
               (mk_store demo_tree
                  (mk_Group [] [("lat", Fixed 5); ("lon", Fixed 5)] []
                     [("model", averaged_tree); ("observed", empty_group)]))))
     = Some averaged_tree.
Proof.
  split; [vm_compute; reflexivity|].
  apply (X10_recursive_copy_stays_below 2 (root SrcFile)
           (child (root DstFile) "observed")
           (mk_store demo_tree
              (mk_Group [] [("lat", Fixed 5); ("lon", Fixed 5)] []
                 [("model", averaged_tree); ("observed", empty_group)]))
           demo_tree empty_group [] "observed" "model" [] []);
    try reflexivity; try discriminate.
Defined.

(** ** A subgroup on its own *)

Lemma stored_more_visible visible visible' v dims data v' :
  (forall x, In x visible -> In x visible') ->
  stored visible v dims data = Some v' ->
  stored visible' v dims data = Some v'.
Proof.
  intros Hsub. unfold stored.
  destruct (forallb (fun d => existsb (String.eqb d) visible) dims) eqn:E;
    [|discriminate].
  assert (forallb (fun d => existsb (String.eqb d) visible') dims = true) as ->;
    [|tauto].
  rewrite forallb_forall in *. intros x Hx.
  apply existsb_eqb_In, Hsub, existsb_eqb_In, E, Hx.
Qed.

Lemma averaged_variable_more_visible visible visible' name v v' :
  (forall x, In x visible -> In x visible') ->
  averaged_variable visible name v = Some v' ->
  averaged_variable visible' name v = Some v'.
Proof.
  intros Hsub. unfold averaged_variable.
  destruct (existsb (String.eqb name) ["lat"; "lon"]).
  { now apply stored_more_visible. }
  destruct (existsb (String.eqb TIME) (v_dimensions v)).
  2: { now apply stored_more_visible. }
  destruct (index TIME (v_dimensions v)) as [axis|]; [|discriminate].
  destruct (axis <? _); [|discriminate].
  now apply stored_more_visible.
Qed.

Lemma all_some_same {A B} (F F' : A -> option B) (l : list A) l' :
  (forall x b, In x l -> F x = Some b -> F' x = Some b) ->
  all_some (map F l) = Some l' ->
  all_some (map F' l) = Some l'.
Proof.
  revert l'. induction l as [|x r IH]; intros l' H; simpl; [tauto|].
  destruct (F x) as [b|] eqn:E; [|discriminate].
  rewrite (H x b (or_introl eq_refl) E).
  destruct (all_some (map F r)) as [r'|]; [|discriminate].
  rewrite (IH r'); [tauto | | reflexivity].
  intros y c Hy. apply H. now right.
Qed.

(** What is written does not depend on how much more is visible
    above. *)
Lemma averaged_more_visible g : forall above above' d,
  (forall x, In x above -> In x above') ->
  averaged above g = Some d ->
  averaged above' g = Some d.
Proof.
  induction g as [a dm v c IH] using Group_induction.
  intros above above' d Hsub. rewrite !averaged_eq. cbv zeta.
  cbn [g_dimensions g_variables g_groups g_attrs].
  assert (forall x, In x (above ++ Dict.keys (filter not_time dm)) ->
                    In x (above' ++ Dict.keys (filter not_time dm))) as Hvis.
  { intros x Hx. apply in_app_or in Hx. apply in_or_app.
    destruct Hx; [left; now apply Hsub | now right]. }
  destruct (all_some (map _ (filter not_time v))) as [vars|] eqn:Ev;
    [|discriminate].
  destruct (all_some (map _ c)) as [subgroups|] eqn:Es; [|discriminate].
  intros Hd.
  apply (all_some_same _
           (fun nv => option_map (pair (fst nv))
              (averaged_variable (above' ++ Dict.keys (filter not_time dm))
                                 (fst nv) (snd nv)))) in Ev.
  2: { intros [n x] b _. simpl.
       destruct (averaged_variable _ n x) as [x'|] eqn:Ex; [|discriminate].
       now rewrite (averaged_variable_more_visible _ _ n x x' Hvis Ex). }
  apply (all_some_same _
           (fun c0 => option_map (pair (fst c0))
              (averaged (above' ++ Dict.keys (filter not_time dm)) (snd c0))))
    in Es.
  2: { intros [n x] b Hin. simpl.
       destruct (averaged _ x) as [x'|] eqn:Ex; [|discriminate].
       rewrite Forall_forall in IH.
       pose proof (IH (n, x) Hin _ _ x' Hvis Ex) as Hx. simpl in Hx.
       now rewrite Hx. }
  rewrite Ev, Es. exact Hd.
Qed.

(** X11.  Copying commutes with taking a subgroup: when the run on a
    whole tree completes and the run on one of its groups alone
    completes too, the destination of the group alone is the
    destination counterpart of that group in the whole. *)
Theorem X11_subgroup_alone src s p g s' :
  well_formed src = true ->
  notebook src = (Ok tt, s) ->
  get_at p src = Some g ->
  notebook g = (Ok tt, s') ->
  get_at p (dst_ds s) = Some (dst_ds s').
Proof.
  intros Hwf Hrun Hg Hrun'.
  pose proof (well_formed_get_at p src g Hwf Hg) as Hwfg.
  destruct (notebook_ok src s Hwf Hrun) as (_ & Hav).
  destruct (notebook_ok g s' Hwfg Hrun') as (_ & Havg).
  destruct (averaged_get_at p [] src _ g Hav Hg) as (above & g' & Hg' & Hav' & _).
  rewrite (averaged_more_visible g [] above (dst_ds s')) in Hav';
    [congruence | now intros x [] | assumption].
Qed.

Lemma X11_subgroup_alone_witness :
  get_at ["model"]
    (dst_ds (snd (notebook (mk_Group [] [] [] [("model", demo_tree)]))))
  = Some averaged_tree.
Proof.
  apply (X11_subgroup_alone (mk_Group [] [] [] [("model", demo_tree)])
           (snd (notebook (mk_Group [] [] [] [("model", demo_tree)])))
           ["model"] demo_tree (mk_store demo_tree averaged_tree));
    reflexivity.
Defined.
